(** * Latent-space embedding (binary Euclidean / binary hyperbolic LSM)

    A shallow embedding of the numerical core of [helper_functions.py],
    [binary_euclidean_LSM.py] and [binary_hyperbolic_LSM.py].

    Numbers.  The Python code computes with IEEE-754 single-precision
    values.  The embedding keeps the four classes of values that the code
    relies on (finite numbers, the two infinities and NaN) and the IEEE-754
    rules for combining them, but computes exactly on the finite part (a
    real number): rounding, overflow and signed zeros are not modelled.
    The properties are chosen accordingly, among those that rounding leaves
    intact on inputs of ordinary size: signs, orderings, closed ranges,
    exact zeros, array shapes and raised errors.

    Errors.  A Python exception is a [Raise] result. *)

From Stdlib Require Import String Ascii DecimalString Reals Lra Lia Bool Arith List.
Import ListNotations.

Set Implicit Arguments.

Open Scope R_scope.

(* ================================================================== *)
(** ** Exceptions *)

Inductive exn : Type :=
| ValueError
| NameError
| IndexError
| TypeError
| AssertionError.

Inductive result (A : Type) : Type :=
| Ok (a : A)
| Raise (e : exn).

Arguments Ok {A} a.
Arguments Raise {A} e.

Definition bind {A B : Type} (m : result A) (k : A -> result B) : result B :=
  match m with
  | Ok a => k a
  | Raise e => Raise e
  end.

Notation "x <- m ;; k" := (bind m (fun x => k))
  (at level 61, m at next level, right associativity).

Fixpoint mapM {A B : Type} (f : A -> result B) (l : list A) : result (list B) :=
  match l with
  | [] => Ok []
  | a :: l' => b <- f a ;; bs <- mapM f l' ;; Ok (b :: bs)
  end.

(* ================================================================== *)
(** ** Numbers: reals extended with the IEEE-754 special values *)

Module Num.

Inductive num : Type :=
| Fin (r : R)
| PInf
| NInf
| NaN.

Definition is_finite (x : num) : Prop :=
  match x with Fin _ => True | _ => False end.

(** [signed_inf r] is the infinity carrying the sign of [r]; a zero factor
    gives NaN (inf * 0). *)
Definition signed_inf (r : R) : num :=
  if Rlt_dec 0 r then PInf else if Rlt_dec r 0 then NInf else NaN.

Definition opp (x : num) : num :=
  match x with
  | Fin r => Fin (- r)
  | PInf => NInf
  | NInf => PInf
  | NaN => NaN
  end.

Definition add (x y : num) : num :=
  match x, y with
  | NaN, _ | _, NaN => NaN
  | Fin a, Fin b => Fin (a + b)
  | PInf, NInf | NInf, PInf => NaN
  | PInf, _ | _, PInf => PInf
  | NInf, _ | _, NInf => NInf
  end.

Definition sub (x y : num) : num := add x (opp y).

Definition mul (x y : num) : num :=
  match x, y with
  | NaN, _ | _, NaN => NaN
  | Fin a, Fin b => Fin (a * b)
  | Fin a, PInf | PInf, Fin a => signed_inf a
  | Fin a, NInf | NInf, Fin a => opp (signed_inf a)
  | PInf, PInf | NInf, NInf => PInf
  | PInf, NInf | NInf, PInf => NInf
  end.

(** Division; a finite zero divisor is taken as +0. *)
Definition div (x y : num) : num :=
  match x, y with
  | NaN, _ | _, NaN => NaN
  | Fin a, Fin b => if Req_dec_T b 0 then signed_inf a else Fin (a / b)
  | Fin _, _ => Fin 0
  | PInf, Fin b => if Rlt_dec b 0 then NInf else PInf
  | NInf, Fin b => if Rlt_dec b 0 then PInf else NInf
  | _, _ => NaN
  end.

Definition sqrt (x : num) : num :=
  match x with
  | Fin a => if Rlt_dec a 0 then NaN else Fin (R_sqrt.sqrt a)
  | PInf => PInf
  | _ => NaN
  end.

Definition exp (x : num) : num :=
  match x with
  | Fin a => Fin (Rtrigo_def.exp a)
  | PInf => PInf
  | NInf => Fin 0
  | NaN => NaN
  end.

Definition log (x : num) : num :=
  match x with
  | Fin a => if Rlt_dec 0 a then Fin (ln a)
             else if Rlt_dec a 0 then NaN else NInf
  | PInf => PInf
  | _ => NaN
  end.

Definition cosh (x : num) : num :=
  match x with
  | Fin a => Fin (Rtrigo_def.cosh a)
  | NaN => NaN
  | _ => PInf
  end.

Definition sinh (x : num) : num :=
  match x with
  | Fin a => Fin (Rtrigo_def.sinh a)
  | other => other
  end.

(** [jnp.maximum] and [jnp.minimum] propagate NaN. *)
Definition maximum (x y : num) : num :=
  match x, y with
  | NaN, _ | _, NaN => NaN
  | PInf, _ | _, PInf => PInf
  | NInf, z | z, NInf => z
  | Fin a, Fin b => Fin (Rmax a b)
  end.

Definition minimum (x y : num) : num :=
  match x, y with
  | NaN, _ | _, NaN => NaN
  | NInf, _ | _, NInf => NInf
  | PInf, z | z, PInf => z
  | Fin a, Fin b => Fin (Rmin a b)
  end.

(** [jnp.clip(a, a_min, a_max)] is [minimum(a_max, maximum(a_min, a))]. *)
Definition clip (a a_min a_max : num) : num :=
  minimum a_max (maximum a_min a).

(** Comparison [x < y]; false as soon as a NaN is involved. *)
Definition ltb (x y : num) : bool :=
  match x, y with
  | NaN, _ | _, NaN => false
  | Fin a, Fin b => if Rlt_dec a b then true else false
  | NInf, NInf => false
  | NInf, _ => true
  | Fin _, PInf => true
  | _, _ => false
  end.

Definition zero : num := Fin 0.
Definition one : num := Fin 1.

(** [x * b] for a comparison [b].  The product of a number and a boolean
    array reaches XLA as [multiply(x, convert(b))], which its algebraic
    simplifier compiles to [select(b, x, 0)]: a false [b] gives 0 whatever
    [x] is, an infinity included, and a true [b] gives [x]. *)
Definition mul_pred (x : num) (b : bool) : num := if b then x else zero.

(** [.sum()] of a one-dimensional array and of a two-dimensional one. *)
Definition sum (v : list num) : num := fold_right add zero v.
Definition sum2 (m : list (list num)) : num := sum (map sum m).

End Num.

Import Num.

Declare Scope num_scope.
Delimit Scope num_scope with num.
Bind Scope num_scope with num.
Infix "+" := add : num_scope.
Infix "-" := sub : num_scope.
Infix "*" := mul : num_scope.
Infix "/" := div : num_scope.
Notation "- x" := (opp x) : num_scope.

Abbreviation vec := (list num).
Abbreviation mat := (list (list num)).

Definition finite_vec (v : vec) : Prop := Forall is_finite v.
Definition finite_mat (m : mat) : Prop := Forall finite_vec m.

(** NumPy broadcasting of a binary operation over two one-dimensional
    arrays: equal lengths pair up, a length-one array is stretched, any
    other combination is a [ValueError]. *)
Fixpoint zip_with {A B C : Type} (f : A -> B -> C) (a : list A) (b : list B)
  : list C :=
  match a, b with
  | x :: a', y :: b' => f x y :: zip_with f a' b'
  | _, _ => []
  end.

Definition broadcast2 (f : num -> num -> num) (a b : vec) : result vec :=
  if Nat.eqb (length a) (length b) then Ok (zip_with f a b)
  else match a, b with
       | [x], _ => Ok (map (f x) b)
       | _, [y] => Ok (map (fun x => f x y) a)
       | _, _ => Raise ValueError
       end.

(* ================================================================== *)
(** ** jax.scipy.stats densities used by the priors *)

Module Stats.

(** [jstats.norm.logpdf(x, loc, scale)]:
    [-(log(2*pi*scale^2) + (x-loc)^2/scale^2) / 2]. *)
Definition norm_logpdf (x loc scale : num) : num :=
  let scale_sqrd := (scale * scale)%num in
  let log_normalizer := log (Fin (2 * PI) * scale_sqrd)%num in
  let quadratic := (((x - loc) * (x - loc)) / scale_sqrd)%num in
  ((log_normalizer + quadratic) / Fin (-2))%num.

(** [jstats.truncnorm.logpdf(x, a=0, b=inf, loc, scale)]: the normal
    log-density minus the log of the Gaussian mass of [0, inf), which is
    [log(1/2)]; -inf outside the support. *)
Definition truncnorm_logpdf_0_inf (x loc scale : num) : num :=
  let val := (norm_logpdf x loc scale - log (Fin (1 / 2)))%num in
  let x_scaled := ((x - loc) / scale)%num in
  if ltb x_scaled zero || ltb PInf x_scaled then NInf else val.

End Stats.

(* ================================================================== *)
(** ** Array helpers *)

(** Width of a two-dimensional array kept as a list of rows (an array
    without rows is given width 0). *)
Definition ncols (m : mat) : nat :=
  match m with
  | [] => 0%nat
  | r :: _ => length r
  end.

(** Reading [v[i]]: JAX clamps an index past the end to the last element;
    reading from an empty axis is an [IndexError] here. *)
Definition get {A : Type} (v : list A) (i : nat) : result A :=
  match v with
  | [] => Raise IndexError
  | x :: _ => Ok (nth (Nat.min i (length v - 1)) v x)
  end.

(** Reading [t[i]] from a Python tuple: an index past the end is an
    [IndexError]. *)
Definition tuple_get {A : Type} (t : list A) (i : nat) : result A :=
  match nth_error t i with
  | Some x => Ok x
  | None => Raise IndexError
  end.

(** [jnp.diag(G)] of a square matrix. *)
Fixpoint diag_from (i : nat) (G : mat) : vec :=
  match G with
  | [] => []
  | row :: G' => nth i row zero :: diag_from (S i) G'
  end.

Definition diag (G : mat) : vec := diag_from 0 G.

(** [jnp.outer(a, b)]. *)
Definition outer (a b : vec) : mat :=
  map (fun x => map (fun y => (x * y)%num) b) a.

(** Inner product of two rows, and [jnp.dot(a, b.T)]. *)
Definition dot (a b : vec) : num := sum (zip_with mul a b).

Definition dot_T (a b : mat) : mat :=
  map (fun ai => map (fun bj => dot ai bj) b) a.

Definition mat_zip (f : num -> num -> num) (a b : mat) : mat :=
  zip_with (zip_with f) a b.

Definition mat_map (f : num -> num) (a : mat) : mat := map (map f) a.

(** [m[jnp.triu_indices(N, k=1)]]: the entries strictly above the diagonal,
    row by row. *)
Fixpoint triu_from (i : nat) (m : mat) : vec :=
  match m with
  | [] => []
  | row :: m' => skipn (S i) row ++ triu_from (S i) m'
  end.

Definition triu (m : mat) : vec := triu_from 0 m.

(** [dist.at[jnp.diag_indices_from(dist)].set(v)]. *)
Fixpoint set_nth (i : nat) (v : num) (row : vec) : vec :=
  match row, i with
  | [], _ => []
  | _ :: r, O => v :: r
  | x :: r, S i' => x :: set_nth i' v r
  end.

Fixpoint set_diag_from (i : nat) (v : num) (m : mat) : mat :=
  match m with
  | [] => []
  | row :: m' => set_nth i v row :: set_diag_from (S i) v m'
  end.

Definition set_diag (v : num) (m : mat) : mat := set_diag_from 0 v m.

(** [jnp.max] of a one-dimensional array; an empty array has no maximum. *)
Definition vmax (d : vec) : result num :=
  match d with
  | [] => Raise ValueError
  | x :: d' => Ok (fold_left maximum d' x)
  end.

(* ================================================================== *)
(** ** helper_functions.py: the geometric transform layer *)

Module Helper.

(** [euclidean_distance(z)] (helper_functions.py, l. 323-333), through the
    Gram matrix. *)
Definition euclidean_distance (z : mat) : mat :=
  let G := dot_T z z in
  let g := diag G in
  let ones := map (fun _ => one) g in
  let inside :=
    mat_map (fun x => maximum x zero)
      (mat_zip sub (mat_zip add (outer ones g) (outer g ones))
                   (mat_map (fun x => (Fin 2 * x)%num) G)) in
  mat_map sqrt inside.

(** [hyp_pnt(X)] (l. 353-364): lift each row onto the hyperboloid. *)
Definition hyp_pnt (X : mat) : mat :=
  map (fun x => sqrt (sum (map (fun c => (c * c)%num) x) + one)%num :: x) X.

(** [signs = ones_like(v); signs.at[:,0].set(-1)], one row. *)
Definition signs_row (v : vec) : vec :=
  set_nth 0 (Fin (-1)) (map (fun _ => one) v).

(** [lorentzian(v, u, keepdims=True)] (l. 366-376): one value per row. *)
Definition lorentzian (v u : mat) : vec :=
  zip_with (fun vr ur =>
              sum (zip_with mul (zip_with mul vr ur) (signs_row vr))) v u.

(** The local [arccosh(x)] of [lorentz_distance]. *)
Definition arccosh (x : num) : num :=
  let x_clip := maximum x one in
  log (x_clip + sqrt (x_clip * x_clip - one))%num.

(** [lorentz_distance(z)] (l. 378-398). *)
Definition lorentz_distance (z : mat) : mat :=
  let signs := map signs_row z in
  let lor := dot_T (mat_zip mul signs z) z in
  let dist := mat_map (fun x => arccosh (- x)%num) lor in
  set_diag zero dist.

(** A per-row scalar (an (N,1) array) applied to the rows of an (N,D)
    array. *)
Definition row_scale (f : num -> num -> num) (s : vec) (m : mat) : mat :=
  zip_with (fun si row => map (fun x => f si x) row) s m.

(** [parallel_transport(v, nu, mu)] (l. 400-410). *)
Definition parallel_transport (v nu mu : mat) : mat :=
  let alpha := map opp (lorentzian nu mu) in
  let coef :=
    zip_with div
      (lorentzian (mat_zip sub mu (row_scale mul alpha nu)) v)
      (map (fun a => (a + one)%num) alpha) in
  mat_zip add v (row_scale mul coef (mat_zip add nu mu)).

(** The divisor [u_norm] of [exponential_map] (l. 421-422):
    [jnp.sqrt(jnp.clip(lor, eps, lor))], one value per row. *)
Definition u_norm (u : mat) (eps : num) : vec :=
  let lor := lorentzian u u in
  map (fun l => sqrt (clip l eps l)) lor.

(** [exponential_map(mu, u, eps)] (l. 412-423):
    [cosh(u_norm) * mu + sinh(u_norm) * u / u_norm]. *)
Definition exponential_map (mu u : mat) (eps : num) : mat :=
  let n := u_norm u eps in
  mat_zip add
    (row_scale mul (map cosh n) mu)
    (row_scale (fun ni x => (x / ni)%num) n (row_scale mul (map sinh n) u)).

(** Default [eps] of [exponential_map]. *)
Definition exponential_map_eps : num := Fin (1 / 1000000).

End Helper.

(* ================================================================== *)
(** ** Particle dictionaries, random draws and the tempered-SMC state *)

(** A leaf of a position dictionary: an array of rank 1, 2 or 3. *)
Inductive array : Type :=
| A1 (v : vec)
| A2 (m : mat)
| A3 (t : list mat).

(** A position dictionary, e.g. [{'_z': ..., '_zb_x': ...}]. *)
Definition pytree : Type := list (string * array).

Fixpoint lookup_key (name : string) (d : pytree) : option array :=
  match d with
  | [] => None
  | (n, a) :: d' => if String.eqb n name then Some a else lookup_key name d'
  end.

(** The scalars of particle [i] of one leaf (the leading axis indexes the
    particles), and of the whole dictionary, in dictionary order. *)
Definition ravel_leaf (a : array) (i : nat) : vec :=
  match a with
  | A1 v => match nth_error v i with Some x => [x] | None => [] end
  | A2 m => nth i m []
  | A3 t => concat (nth i t [])
  end.

Definition ravel_particle (d : pytree) (i : nat) : vec :=
  concat (map (fun e => ravel_leaf (snd e) i) d).

(** [jnp.eye(n)] and a scalar multiple of a matrix. *)
Definition eye (n : nat) : mat :=
  map (fun i => map (fun j => if Nat.eqb i j then one else zero) (seq 0 n))
      (seq 0 n).

Definition scale (c : num) (m : mat) : mat := mat_map (fun x => (c * x)%num) m.

Module Jax.
Section Random.

(** PRNG keys; [split_at k n i] is the [i]-th key of
    [jax.random.split(k, n)]. *)
Variable key : Type.
Variable split_at : key -> nat -> nat -> key.

Definition split (k : key) (n : nat) : list key :=
  map (split_at k n) (seq 0 n).

(** [random_normal k shape i] is the [i]-th entry (row-major) of
    [jax.random.normal(k, shape)]; [normal3 k P n D] is the whole array for
    [shape = (P, n, D)]. *)
Variable random_normal : key -> list nat -> nat -> num.

Definition normal3 (k : key) (P n D : nat) : list mat :=
  map (fun p =>
         map (fun i =>
                map (fun c => random_normal k [P; n; D] ((p * n + i) * D + c))
                    (seq 0 D))
             (seq 0 n))
      (seq 0 P).

(** [jax.random.truncated_normal(k, lower, upper, shape=(P, 1))]. *)
Variable random_truncated_normal : key -> num -> num -> nat -> num.

Definition truncated_normal2 (k : key) (lower upper : num) (P : nat) : mat :=
  map (fun p => [random_truncated_normal k lower upper p]) (seq 0 P).

End Random.
End Jax.

(** blackjax's [TemperedSMCState] and the part of [SMCInfo] the loop uses. *)
Record TemperedSMCState : Type := mkState {
  particles : pytree;
  weights : vec;
  lmbda : num
}.

Record SMCInfo : Type := mkInfo {
  log_likelihood_increment : num
}.

(** What [bjx.adaptive_tempered_smc(...)] returns: [smc.init] and [smc.step]. *)
Record SamplingAlgorithm (key : Type) : Type := mkSampler {
  smc_init : pytree -> TemperedSMCState;
  smc_step : key -> TemperedSMCState -> TemperedSMCState * SMCInfo
}.

(** The values carried through [jax.lax.while_loop]. *)
Inductive pyval (key : Type) : Type :=
| VInt (n : nat)
| VFloat (x : num)
| VState (s : TemperedSMCState)
| VKey (k : key).

Arguments VInt {key} n.
Arguments VFloat {key} x.
Arguments VState {key} s.
Arguments VKey {key} k.

Module Lax.
Section WhileLoop.

Variable key : Type.
Local Abbreviation carry := (list (pyval key)).

Definition same_kind (a b : pyval key) : bool :=
  match a, b with
  | VInt _, VInt _ | VFloat _, VFloat _
  | VState _, VState _ | VKey _, VKey _ => true
  | _, _ => false
  end.

Fixpoint same_structure (a b : carry) : bool :=
  match a, b with
  | [], [] => true
  | x :: a', y :: b' => same_kind x y && same_structure a' b'
  | _, _ => false
  end.

Variable cond_fun : carry -> result bool.
Variable body_fun : carry -> result carry.

Fixpoint iterate (fuel : nat) (val : carry) : option (result carry) :=
  match fuel with
  | O => None
  | S fuel' =>
      match cond_fun val with
      | Raise e => Some (Raise e)
      | Ok false => Some (Ok val)
      | Ok true =>
          match body_fun val with
          | Raise e => Some (Raise e)
          | Ok val' => iterate fuel' val'
          end
      end
  end.

(** [jax.lax.while_loop(cond_fun, body_fun, init_val)]: both functions
    are traced once on [init_val] (an exception raised there, or a body
    whose result has another structure than its argument, stops the call),
    then the loop runs.  [None] is a run that needs more than [fuel]
    iterations. *)
Definition while_loop (fuel : nat) (init_val : carry)
  : option (result carry) :=
  match cond_fun init_val with
  | Raise e => Some (Raise e)
  | Ok _ =>
      match body_fun init_val with
      | Raise e => Some (Raise e)
      | Ok out =>
          if same_structure init_val out then iterate fuel init_val
          else Some (Raise TypeError)
      end
  end.

End WhileLoop.
End Lax.

(* ================================================================== *)
(** ** jax.scipy.stats.bernoulli.logpmf *)

Module Bernoulli.

Definition is_zero (x : num) : bool :=
  match x with
  | Fin a => if Req_dec_T a 0 then true else false
  | _ => false
  end.

(** [xlogy(x, y)]: 0 where [x == 0], [x * log(y)] elsewhere. *)
Definition xlogy (x y : num) : num :=
  if is_zero x then zero else (x * log y)%num.

(** [xlog1py(x, y)]: 0 where [x == 0], [x * log(1 + y)] elsewhere. *)
Definition xlog1py (x y : num) : num :=
  if is_zero x then zero else (x * log (one + y))%num.

(** [bernoulli.logpmf(k, p)] (with [loc = 0]). *)
Definition logpmf (k p : num) : num :=
  let x := (k - zero)%num in
  let log_probs := (xlogy x p + xlog1py (one - x) (- p))%num in
  if ltb x zero || ltb one x then NInf else log_probs.

(** [bernoulli.logpmf(obs, p).sum()] for an (S, M) observation array and
    an (M,) probability vector. *)
Definition logpmf_sum (obs : mat) (p : vec) : result num :=
  rows <- mapM (fun o => broadcast2 logpmf o p) obs ;;
  Ok (sum2 rows).

End Bernoulli.

(** The dictionary returned by [get_det_params]. *)
Record params : Type := mkParams {
  p_z : mat;        (* 'z' (Euclidean) / '_z' (hyperbolic) *)
  p_zh : mat;       (* 'z' of the hyperbolic model: points on the hyperboloid *)
  p_d : vec;        (* 'd' *)
  p_d_norm : vec;   (* 'd_norm' (Euclidean only) *)
  p_p : vec         (* 'p' *)
}.

(* ================================================================== *)
(** ** binary_hyperbolic_LSM.py *)

Module Hyp.

(** [d_to_p(d, eps)] (l. 157-164): [jnp.clip(jnp.exp(-d**2), eps, 1-eps)]. *)
Definition d_to_p (d : vec) (eps : num) : vec :=
  map (fun x => clip (exp (- (x * x))%num) eps (one - eps)%num) d.

(** [get_det_params(_z, mu, eps)] (l. 166-203) with an array-like [mu]. *)
Definition get_det_params (_z : mat) (mu : vec) (eps : num) : result params :=
  let D := ncols _z in
  let mu_0 := map (fun row => one :: map (fun _ => zero) row) _z in
  if negb (Nat.eqb (length mu) D) then Raise AssertionError else
  let mu_tilde := map (fun _ => mu) _z in
  let mu_h := Helper.hyp_pnt mu_tilde in
  let v := map (fun row => zero :: row) _z in
  let u := Helper.parallel_transport v mu_0 mu_h in
  let z := Helper.exponential_map mu_h u Helper.exponential_map_eps in
  let d := triu (Helper.lorentz_distance z) in
  let p := d_to_p d eps in
  Ok (mkParams _z z d [] p).

(** [log_prior(_z, sigma)] (l. 248-256). *)
Definition log_prior (_z : mat) (sigma : num) : num :=
  sum2 (mat_map (fun x => Stats.norm_logpdf x zero sigma) _z).

(** [bookstein_log_prior(_z, _zb_x, sigma)] (l. 258-269);
    [bookstein_dist] is the module-level constant, and the constraint term
    [jnp.inf*(_z[0,1] < 0)] is the product of a number and a comparison. *)
Definition bookstein_log_prior (bookstein_dist : num)
    (_z : mat) (_zb_x : vec) (sigma : num) : result num :=
  let _zb_x_logprior :=
    sum (map (fun x => Stats.truncnorm_logpdf_0_inf x (- bookstein_dist)%num sigma)
             _zb_x) in
  z0 <- get _z 0 ;;
  z01 <- get z0 1 ;;
  let _zb_y_logprior :=
    ((log (Fin 2) + sum (map (fun x => Stats.norm_logpdf x zero sigma) z0))
     - mul_pred PInf (ltb z01 zero))%num in
  let rest_logprior := log_prior (tl _z) sigma in
  Ok ((rest_logprior + _zb_x_logprior) + _zb_y_logprior)%num.

(** [log_likelihood(_z, obs, eps)] (l. 271-283); [mu] is the module-level
    constant. *)
Definition log_likelihood (mu : vec) (_z : mat) (obs : mat) (eps : num)
  : result num :=
  params <- get_det_params _z mu eps ;;
  let p := p_p params in
  Bernoulli.logpmf_sum obs p.

Section Driver.

Local Open Scope string_scope.

Variable sigma bookstein_dist : num.
Variable key : Type.
Variable split_at : key -> nat -> nat -> key.
Variable random_normal : key -> list nat -> nat -> num.
Variable random_truncated_normal : key -> num -> num -> nat -> num.

(** [smc_bookstein_position] of [bookstein_methods.py] (not among the
    sources). *)
Variable smc_bookstein_position : list mat -> list mat.

(** [initialize_bkst_particles(key, num_particles, shape, sigma,
    bookstein_dist)] (l. 329-343). *)
Definition initialize_bkst_particles (k : key) (num_particles : nat)
    (shape : nat * nat) : result (key * pytree) :=
  let (N, D) := shape in
  match Jax.split split_at k 3 with
  | [k'; _z_key; _z_bx_key] =>
      let initial_position :=
        [ ("_z", A3 (smc_bookstein_position
                       (map (mat_map (fun x => (sigma * x)%num))
                            (Jax.normal3 random_normal _z_key
                                         num_particles (N - D) D))));
          ("_zb_x", A2 (mat_map (fun x => (sigma * x)%num)
                          (Jax.truncated_normal2 random_truncated_normal
                             _z_bx_key (- bookstein_dist)%num PInf
                             num_particles))) ] in
      Ok (k', initial_position)
  | _ => Raise ValueError
  end.

(** [n_vars] and the proposal covariance built in [get_LSM_embedding]
    (l. 363-364): [rmh_sigma * jnp.eye(n_vars)]. *)
Definition n_vars (N D : nat) : nat := ((N - D) * D + 1)%nat.

Definition rmh_parameters (N D : nat) (rmh_sigma : num) : mat :=
  scale rmh_sigma (eye (n_vars N D)).

End Driver.

End Hyp.

(* ================================================================== *)
(** ** binary_euclidean_LSM.py *)

Module Euclid.

(** [get_det_params(z, eps)] (l. 142-161). *)
Definition get_det_params (z : mat) (eps : num) : result params :=
  let d := triu (Helper.euclidean_distance z) in
  m <- vmax d ;;
  let d_norm := map (fun x => (x / (m + eps))%num) d in
  let p := map (fun x => (one - x)%num) d_norm in
  Ok (mkParams z [] d d_norm p).

(** [log_prior(z, mu, sigma)] (l. 209-218): [mu] is broadcast along the
    rows. *)
Definition log_prior (z : mat) (mu : vec) (sigma : num) : result num :=
  rows <- mapM (fun row =>
                  broadcast2 (fun x m => Stats.norm_logpdf x m sigma) row mu) z ;;
  Ok (sum2 rows).

(** [bookstein_log_prior(z, mu, sigma)] (l. 220-230); the constraint term
    [np.NINF*(z[0,1] < 0.)] is the product of a number and a comparison. *)
Definition bookstein_log_prior (z : mat) (mu : vec) (sigma : num)
  : result num :=
  rest_logprior <- log_prior (tl z) mu sigma ;;
  z0 <- get z 0 ;;
  pivot_pdf <- broadcast2 (fun x m => Stats.norm_logpdf x m sigma) z0 mu ;;
  z01 <- get z0 1 ;;
  let pivot_point_logprior :=
    ((log (Fin 2) + sum pivot_pdf) + mul_pred NInf (ltb z01 zero))%num in
  Ok (rest_logprior + pivot_point_logprior)%num.

(** The values bound at module level that a function body can call.
    [GParams] is a function from positions and [eps] to the parameter
    dictionary; every other binding is [GOther]. *)
Inductive global : Type :=
| GParams (f : mat -> num -> result params)
| GOther.

Local Open Scope string_scope.

(** The module namespace of [binary_euclidean_LSM.py]: its imports, its
    constants and its [def]s. *)
Definition module_globals : list (string * global) :=
  [ ("set_GPU", GOther); ("get_cmd_params", GOther);
    ("get_filename_with_ext", GOther); ("get_safe_folder", GOther);
    ("load_observations", GOther); ("get_attribute_from_trace", GOther);
    ("euclidean_distance", GOther);
    ("get_bookstein_anchors", GOther); ("bookstein_position", GOther);
    ("smc_bookstein_position", GOther); ("add_bkst_to_smc_trace", GOther);
    ("plot_posterior", GOther); ("plot_network", GOther);
    ("pickle", GOther); ("time", GOther); ("os", GOther); ("csv", GOther);
    ("np", GOther); ("plt", GOther); ("jax", GOther); ("jnp", GOther);
    ("jstats", GOther); ("bjx", GOther); ("resampling", GOther);
    ("PRNGKeyArray", GOther); ("ArrayLike", GOther); ("PyTree", GOther);
    ("RMHState", GOther); ("TemperedSMCState", GOther); ("SMCInfo", GOther);
    ("Callable", GOther); ("Tuple", GOther);
    ("eps", GOther); ("obs_eps", GOther); ("mu", GOther); ("sigma", GOther);
    ("N", GOther); ("D", GOther); ("s1", GOther); ("sn", GOther);
    ("n_particles", GOther); ("n_mcmc_steps", GOther); ("rmh_sigma", GOther);
    ("bookstein_dist", GOther); ("base_data_filename", GOther);
    ("task_filename", GOther); ("base_output_folder", GOther);
    ("make_plot", GOther); ("figure_folder", GOther);
    ("label_location", GOther); ("plot_threshold", GOther);
    ("do_print", GOther); ("save_stats", GOther); ("stats_filename", GOther);
    ("stats_folder", GOther); ("dl", GOther); ("seed_file", GOther);
    ("seed", GOther); ("gpu", GOther);
    ("get_det_params", GParams get_det_params);
    ("sample_prior", GOther); ("sample_observation", GOther);
    ("log_prior", GOther); ("bookstein_log_prior", GOther);
    ("log_likelihood", GOther); ("bookstein_log_likelihood", GOther);
    ("log_density", GOther); ("initialize_particles", GOther);
    ("initialize_bkst_particles", GOther);
    ("smc_bkst_inference_loop", GOther); ("get_LSM_embedding", GOther) ].

Fixpoint lookup_global (name : string) (g : list (string * global))
  : result global :=
  match g with
  | [] => Raise NameError
  | (n, v) :: g' => if String.eqb n name then Ok v else lookup_global name g'
  end.

(** [log_likelihood(z, obs, eps)] (l. 232-244): the body calls the global
    [get_all_params]. *)
Definition log_likelihood (z : mat) (obs : mat) (eps : num) : result num :=
  f <- lookup_global "get_all_params" module_globals ;;
  match f with
  | GParams get_all_params =>
      params <- get_all_params z eps ;;
      let p := p_p params in
      Bernoulli.logpmf_sum obs p
  | GOther => Raise TypeError
  end.

Section Driver.

(** Module-level constants ([mu], [sigma], [eps], [bookstein_dist]). *)
Variable mu : vec.
Variable sigma eps bookstein_dist : num.

(** The JAX random generator. *)
Variable key : Type.
Variable split_at : key -> nat -> nat -> key.
Variable random_normal : key -> list nat -> nat -> num.

(** Functions of [bookstein_methods.py] (not among the sources) and of
    blackjax. *)
Variable smc_bookstein_position : list mat -> list mat.
Variable get_bookstein_anchors : nat -> num -> mat.
Variable add_bkst_to_smc_trace :
  TemperedSMCState -> num -> nat -> TemperedSMCState.
Variable adaptive_tempered_smc :
  (pytree -> result num) -> (pytree -> result num) -> mat -> nat ->
  SamplingAlgorithm key.

(** [bookstein_log_likelihood(z, obs, eps)] (l. 246-260). *)
Definition bookstein_log_likelihood (z : mat) (obs : mat) : result num :=
  let n_dims := ncols z in
  let bookstein_anchors := get_bookstein_anchors n_dims bookstein_dist in
  let zc := (bookstein_anchors ++ z)%list in
  log_likelihood zc obs eps.

(** [initialize_bkst_particles(key, num_particles, shape, mu, sigma)]
    (l. 291-304). *)
Definition initialize_bkst_particles (k : key) (num_particles : nat)
    (shape : nat * nat) : result (key * pytree) :=
  let (N, D) := shape in
  match Jax.split split_at k 2 with
  | [z_key; k'] =>
      draws <- mapM (mapM (fun row =>
                             broadcast2 add (map (fun x => (sigma * x)%num) row) mu))
                    (Jax.normal3 random_normal z_key num_particles (N - D) D) ;;
      let initial_position := [("z", A3 (smc_bookstein_position draws))] in
      Ok (k', initial_position)
  | _ => Raise ValueError
  end.

(** [cond(carry)] of [smc_bkst_inference_loop] (l. 316-318). *)
Definition cond (carry : list (pyval key)) : result bool :=
  state <- tuple_get carry 2 ;;
  match state with
  | VState state => Ok (ltb (lmbda state) one)
  | _ => Raise TypeError
  end.

(** [step(carry)] of [smc_bkst_inference_loop] (l. 320-326):
    [i, lml, s_values, state, key = carry] takes a carry of five values. *)
Definition step (smc_kernel : key -> TemperedSMCState -> TemperedSMCState * SMCInfo)
    (carry : list (pyval key)) : result (list (pyval key)) :=
  match carry with
  | [i; lml; s_values; state; k] =>
      match i, lml, state, k with
      | VInt i, VFloat lml, VState state, VKey k =>
          match Jax.split split_at k 2 with
          | [k'; subkey] =>
              let (state', info) := smc_kernel subkey state in
              let lml' := (lml + log_likelihood_increment info)%num in
              Ok [VInt (i + 1); VFloat lml'; VState state'; VKey k']
          | _ => Raise ValueError
          end
      | _, _, _, _ => Raise TypeError
      end
  | _ => Raise ValueError
  end.

(** [smc_bkst_inference_loop(key, smc_kernel, initial_state)]
    (l. 306-332). *)
Definition smc_bkst_inference_loop (fuel : nat) (k : key)
    (smc_kernel : key -> TemperedSMCState -> TemperedSMCState * SMCInfo)
    (initial_state : TemperedSMCState)
  : option (result (key * nat * num * TemperedSMCState)) :=
  match Lax.while_loop cond (step smc_kernel) fuel
          [VInt 0; VFloat zero; VState initial_state; VKey k] with
  | None => None
  | Some (Raise e) => Some (Raise e)
  | Some (Ok [VInt n_iter; VFloat lml; VState final_state; VKey k']) =>
      Some (Ok (k', n_iter, lml, final_state))
  | Some (Ok _) => Some (Raise ValueError)
  end.

(** The proposal covariance built in [get_LSM_embedding] (l. 351):
    [rmh_sigma * jnp.eye((N - D) * D + 1)]. *)
Definition rmh_parameters (N D : nat) (rmh_sigma : num) : mat :=
  scale rmh_sigma (eye ((N - D) * D + 1)%nat).

(** [get_LSM_embedding(key, obs, N, D, rmh_sigma, n_mcmc_steps,
    n_particles)] (l. 334-372). *)
Definition get_LSM_embedding (fuel : nat) (k : key) (obs : mat) (N D : nat)
    (rmh_sigma : num) (n_mcmc_steps n_particles : nat)
  : option (result (key * nat * num * TemperedSMCState)) :=
  let _bookstein_log_prior := fun state : pytree =>
    match lookup_key "z" state with
    | Some (A2 z) => bookstein_log_prior z mu sigma
    | _ => Raise TypeError
    end in
  let _bookstein_log_likelihood := fun state : pytree =>
    match lookup_key "z" state with
    | Some (A2 z) => bookstein_log_likelihood z obs
    | _ => Raise TypeError
    end in
  let smc :=
    adaptive_tempered_smc _bookstein_log_prior _bookstein_log_likelihood
      (rmh_parameters N D rmh_sigma) n_mcmc_steps in
  match initialize_bkst_particles k n_particles (N, D) with
  | Raise e => Some (Raise e)
  | Ok (k1, init_position) =>
      let initial_smc_state := smc_init smc init_position in
      match smc_bkst_inference_loop fuel k1 (smc_step smc) initial_smc_state with
      | None => None
      | Some (Raise e) => Some (Raise e)
      | Some (Ok (k2, n_iter, lml, states_rwm_smc)) =>
          Some (Ok (k2, n_iter, lml,
                    add_bkst_to_smc_trace states_rwm_smc bookstein_dist D))
      end
  end.

End Driver.

End Euclid.

(* ================================================================== *)
(** ** helper_functions.py: coordinate change and the logistic functions *)

Module Helper2.

(** One network of [lorentz_to_poincare] (l. 348): every row
    [nw[i, 1:] / (nw[i, 0] + 1)]; a row without a first coordinate has
    nothing to divide by ([D_L - 1] is negative). *)
Definition calc_z_P (nw : mat) : result mat :=
  mapM (fun row =>
          match row with
          | [] => Raise ValueError
          | z0 :: rest => Ok (map (fun x => (x / (z0 + one))%num) rest)
          end) nw.

(** [lorentz_to_poincare(networks)] (l. 335-351), for one network
    (N, D) or a stack of networks (S, N, D). *)
Definition lorentz_to_poincare (networks : array) : result array :=
  match networks with
  | A1 _ => Raise ValueError
  | A2 nw => z_P <- calc_z_P nw ;; Ok (A2 z_P)
  | A3 nws => z_P <- mapM calc_z_P nws ;; Ok (A3 z_P)
  end.

(** [logit(x)] (l. 307-313): [jnp.log(1/(1-x))]. *)
Definition logit (x : num) : num := log (one / (one - x))%num.

(** [invlogit(x)] (l. 315-321): [1 / (1 + jnp.exp(-x))]. *)
Definition invlogit (x : num) : num := (one / (one + exp (- x)))%num.

(** [jnp.isfinite]. *)
Definition isfinite (x : num) : bool :=
  match x with Fin _ => true | _ => false end.

(** The positions of the entries of a one-dimensional array that satisfy
    [f], in increasing order ([jnp.where] of a boolean array). *)
Fixpoint where_from (i : nat) (f : num -> bool) (x : vec) : list nat :=
  match x with
  | [] => []
  | a :: x' => if f a then i :: where_from (S i) f x' else where_from (S i) f x'
  end.

(** [is_valid(x)] (l. 143-149) for a one-dimensional array. *)
Definition is_valid (x : vec) : bool * list nat :=
  (forallb isfinite x, where_from 0 (fun a => negb (isfinite a)) x).

Local Open Scope string_scope.

(** [get_filename_with_ext(base_filename, partial, bpf, ext, folder)]
    (l. 91-104). *)
Definition get_filename_with_ext (base_filename : string)
    (partial bpf : bool) (ext folder : string) : string :=
  let partial_txt := if partial then "_partial" else "" in
  let bpf_txt := if bpf then "_bpf" else "" in
  folder ++ "/" ++ base_filename ++ partial_txt ++ bpf_txt ++ "." ++ ext.

End Helper2.

(* ================================================================== *)
(** ** binary_hyperbolic_LSM.py / binary_euclidean_LSM.py: further functions *)

Module Hyp2.

(** [log_likelihood_from_dist(d, obs, eps)] (binary_hyperbolic_LSM.py,
    l. 285-295). *)
Definition log_likelihood_from_dist (d : vec) (obs : mat) (eps : num)
  : result num :=
  let p := Hyp.d_to_p d eps in
  Bernoulli.logpmf_sum obs p.

End Hyp2.

Module Euclid2.
Section Particles.

(** Module-level constants [N], [D], [mu], [sigma]. *)
Variable N D : nat.
Variable mu : vec.
Variable sigma : num.

Variable key : Type.
Variable split_at : key -> nat -> nat -> key.
Variable random_normal : key -> list nat -> nat -> num.

(** [initialize_particles(key, num_particles, shape, mu, sigma)]
    (binary_euclidean_LSM.py, l. 277-289): the array is drawn with the
    module constants [N] and [D]; [shape] is not read. *)
Definition initialize_particles (k : key) (num_particles : nat)
    (shape : nat * nat) : result (key * pytree) :=
  match Jax.split split_at k 2 with
  | [z_key; k'] =>
      draws <- mapM (mapM (fun row =>
                             broadcast2 add (map (fun x => (sigma * x)%num) row) mu))
                    (Jax.normal3 random_normal z_key num_particles N D) ;;
      let initial_position := [("z"%string, A3 draws)] in
      Ok (k', initial_position)
  | _ => Raise ValueError
  end.

End Particles.
End Euclid2.

(* ================================================================== *)
(** ** helper_functions.py: data manipulation *)

Module DataManip.

(** [int((1 + np.sqrt(1 + 8 * m))/2)] (l. 229), computed exactly. *)
Definition triu_size (m : nat) : nat := ((1 + Nat.sqrt (1 + 8 * m)) / 2)%nat.

(** [jnp.zeros((n, n)).at[jnp.triu_indices(n, k=1)].set(v)]: row [i] keeps
    zeros up to the diagonal and takes the next [n - 1 - i] entries of
    [v]; [fill_triu n i r v] builds the [r] rows from row [i] on. *)
Fixpoint fill_triu (n i r : nat) (v : vec) : mat :=
  match r with
  | O => []
  | S r' =>
      (repeat zero (S i) ++ firstn (n - S i) v)
      :: fill_triu n (S i) r' (skipn (n - S i) v)
  end.

(** [m.T] of a rectangular matrix. *)
Definition transpose (m : mat) : mat :=
  map (fun j => map (fun row => nth j row zero) m) (seq 0 (ncols m)).

(** [triu2mat(v)] (l. 222-233); a vector whose length is not the number
    of entries above the diagonal cannot be written into the matrix. *)
Definition triu2mat (v : vec) : result mat :=
  let m := length v in
  let n := triu_size m in
  if negb (Nat.eqb m (n * (n - 1) / 2)) then Raise ValueError else
  let mat := fill_triu n 0 n v in
  Ok (mat_zip add mat (transpose mat)).

End DataManip.

(* ================================================================== *)
(** ** helper_functions.py: get_attribute_from_trace *)

Module Trace.

(** The positions handed to [get_attribute_from_trace], by the rank of
    the array: [(T, n_particles, N, D)], [(n_particles, N, D)], or any
    other rank. *)
Inductive embeddings : Type :=
| Rank4 (e : list (list mat))
| Rank3 (e : list mat)
| RankOther.

(** What is returned: [attributes], or [attributes[0]] when [T == 1]. *)
Inductive attributes_out : Type :=
| Full (a : list (list vec))
| First (a : list vec).

(** [l.at[n].set(f(l[n]))]; an update past the end is dropped. *)
Fixpoint upd {A : Type} (n : nat) (f : A -> A) (l : list A) : list A :=
  match l, n with
  | [], _ => []
  | x :: l', O => f x :: l'
  | x :: l', S n' => x :: upd n' f l'
  end.

(** A value written into a slice of [M] entries is broadcast to it. *)
Definition fit (M : nat) (v : vec) : result vec :=
  if Nat.eqb (length v) M then Ok v
  else match v with
       | [x] => Ok (repeat x M)
       | _ => Raise ValueError
       end.

Section GetAttribute.

(** [get_det_params(z, **param_kwargs)[attribute]] for the positions of
    one particle, a one-dimensional attribute such as ['d'] or ['p']. *)
Variable det_attr : mat -> result vec.

Local Abbreviation carry := (nat * nat * list (list vec))%type.

Definition cond (T : nat) (c : carry) : bool :=
  let '(k, _, _) := c in Nat.ltb k T.

Definition step (LSM_embeddings : list (list mat)) (n_particles M : nat)
    (c : carry) : result carry :=
  let '(k, i, attributes) := c in
  particles_k <- get LSM_embeddings k ;;
  z <- get particles_k i ;;
  a <- det_attr z ;;
  a <- fit M a ;;
  let attributes := upd k (upd i (fun _ => a)) attributes in
  let i := ((i + 1) mod n_particles)%nat in
  let k := (k + (if Nat.eqb i 0 then 1 else 0))%nat in
  Ok (k, i, attributes).

Fixpoint iterate (T : nat) (body : carry -> result carry) (fuel : nat)
    (c : carry) : option (result carry) :=
  match fuel with
  | O => None
  | S fuel' =>
      if cond T c then
        match body c with
        | Raise e => Some (Raise e)
        | Ok c' => iterate T body fuel' c'
        end
      else Some (Ok c)
  end.

(** [jax.lax.while_loop(cond, step, init)]: the body is traced once on
    the initial carry before the loop runs, so an exception it raises
    there stops the call even when the loop would not be entered. *)
Definition while_loop (T : nat) (body : carry -> result carry) (fuel : nat)
    (init : carry) : option (result carry) :=
  match body init with
  | Raise e => Some (Raise e)
  | Ok _ => iterate T body fuel init
  end.

(** The loop of l. 256-304 on an array of rank four, [shape] left at
    [None]; [T], [n_particles] and [N] are the first three sizes of the
    (rectangular) array. *)
Definition run (fuel : nat) (LSM_embeddings : list (list mat))
  : option (result attributes_out) :=
  let T := length LSM_embeddings in
  let n_particles := length (hd [] LSM_embeddings) in
  let N := length (hd [] (hd [] LSM_embeddings)) in
  let M := (N * (N - 1) / 2)%nat in
  let zeros := repeat (repeat (repeat zero M) n_particles) T in
  match while_loop T (step LSM_embeddings n_particles M) fuel
          (0%nat, 0%nat, zeros) with
  | None => None
  | Some (Raise e) => Some (Raise e)
  | Some (Ok (_, _, attributes)) =>
      Some (Ok (if Nat.eqb T 1 then First (hd [] attributes)
                else Full attributes))
  end.

(** [get_attribute_from_trace(LSM_embeddings, get_det_params, attribute,
    param_kwargs=...)] (l. 256-304), called without [shape].  An array
    of another rank only prints a message, and the first use of [N]
    fails with [UnboundLocalError], a [NameError]. *)
Definition get_attribute_from_trace (fuel : nat)
    (LSM_embeddings : embeddings) : option (result attributes_out) :=
  match LSM_embeddings with
  | Rank4 e => run fuel e
  | Rank3 e => run fuel [e]
  | RankOther => Some (Raise NameError)
  end.

End GetAttribute.
End Trace.

(* ================================================================== *)
(** ** helper_functions.py: task files *)

Module TaskFile.
Local Open Scope string_scope.

Definition LF : ascii := "010"%char.
Definition CR : ascii := "013"%char.

(** [f'{i}'] for an integer [i >= 0]. *)
Definition str (i : nat) : string := NilEmpty.string_of_uint (Nat.to_uint i).

(** [sep.split]-free part of Python's string methods:
    [s.split(sep)] for a separator of one character, *)
Fixpoint split (sep : ascii) (s : string) : list string :=
  match s with
  | EmptyString => [EmptyString]
  | String c s' =>
      if Ascii.eqb c sep then EmptyString :: split sep s'
      else match split sep s' with
           | [] => [String c EmptyString]
           | w :: ws => String c w :: ws
           end
  end.

(** [s.rstrip(c)] for one character, *)
Fixpoint rstrip (c0 : ascii) (s : string) : string :=
  match s with
  | EmptyString => EmptyString
  | String c s' =>
      match rstrip c0 s' with
      | EmptyString => if Ascii.eqb c c0 then EmptyString
                       else String c EmptyString
      | r => String c r
      end
  end.

(** and [f.readline()]: the text up to and including the next line feed,
    and what is left to read. *)
Fixpoint readline (s : string) : string * string :=
  match s with
  | EmptyString => (EmptyString, EmptyString)
  | String c s' =>
      if Ascii.eqb c LF then (String c EmptyString, s')
      else let (l, r) := readline s' in (String c l, r)
  end.

(** Reading in text mode turns the line ends [\r\n] and [\r] into [\n]. *)
Fixpoint universal_newlines (after_cr : bool) (s : string) : string :=
  match s with
  | EmptyString => EmptyString
  | String c s' =>
      if Ascii.eqb c CR then String LF (universal_newlines true s')
      else if Ascii.eqb c LF && after_cr then universal_newlines false s'
      else String c (universal_newlines false s')
  end.

(** The text files by name, on a system whose line separator is [\n] and
    where every name can be written. *)
Definition files : Type := string -> option string.

Definition write_file (fs : files) (filename content : string) : files :=
  fun name => if String.eqb name filename then Some content else fs name.

(** [create_task_file(filename, n_tasks, n_observations, delim)]
    (l. 151-164). *)
Definition create_task_file (fs : files) (filename : string)
    (n_tasks n_observations : nat) (delim : string) : files :=
  let task_str :=
    String.concat delim (map (fun i => "T" ++ str i) (seq 0 n_tasks)) in
  let obs_str :=
    String.concat delim (map (fun i => "obs" ++ str i) (seq 0 n_observations)) in
  write_file fs filename ((task_str ++ String LF EmptyString) ++ obs_str).

(** [open_taskfile(task_filename)] (l. 166-175); [None] is the
    [FileNotFoundError] of [open]. *)
Definition open_taskfile (fs : files) (task_filename : string)
  : option (list string * list string) :=
  match fs task_filename with
  | None => None
  | Some content =>
      let tf := universal_newlines false content in
      let (line, tf) := readline tf in
      let tasks := split ","%char (rstrip LF line) in
      let (line, tf) := readline tf in
      let encs := split ","%char (rstrip LF line) in
      Some (tasks, encs)
  end.

End TaskFile.

(* ================================================================== *)
(** ** Predicates used in the statements *)

Definition finite_or_ninf (x : num) : Prop :=
  match x with Fin _ | NInf => True | _ => False end.

(** The order on numbers: NaN is comparable to nothing. *)
Definition num_le (x y : num) : Prop :=
  match x, y with
  | NaN, _ | _, NaN => False
  | NInf, _ => True
  | _, PInf => True
  | Fin a, Fin b => a <= b
  | _, _ => False
  end.

(** A finite number inside the closed interval [lo, hi], and inside the
    half-open interval (lo, hi]. *)
Definition within_closed (lo hi : R) (x : num) : Prop :=
  exists r, x = Fin r /\ lo <= r <= hi.


(** Entry [(i, j)] of a matrix. *)
Definition entry (m : mat) (i j : nat) : num := nth j (nth i m []) NaN.

(** An array of [n] rows of [d] entries each. *)
Definition shape2 (n d : nat) (m : mat) : Prop :=
  length m = n /\ Forall (fun row => length row = d) m.


(** The matrix whose entry [(i, j)] is [F a_i b_j]. *)
Definition table (F : vec -> vec -> num) (a b : mat) : mat :=
  map (fun x => map (F x) b) a.

(** [euclidean_distance] entry by entry. *)
Definition euclid_entry (x y : vec) : num :=
  sqrt (maximum ((one * dot y y + dot x x * one) - Fin 2 * dot x y) zero)%num.

(** [lorentz_distance] entry by entry, off the diagonal. *)
Definition lorentz_entry (x y : vec) : num :=
  Helper.arccosh (- dot (zip_with mul (Helper.signs_row x) x) y)%num.

(** The inner product of two lists of reals, and the points of the upper
    sheet of the hyperboloid [-u0^2 + u1^2 + ... = -1]. *)
Definition rdot (x y : list R) : R := fold_right Rplus 0 (zip_with Rmult x y).

Definition on_hyperboloid (u : vec) : Prop :=
  exists a x, u = Fin a :: map Fin x /\ 0 < a /\ a * a = 1 + rdot x x.

(** An observation that is 0 or 1. *)
Definition binary (x : num) : Prop := x = Fin 0 \/ x = Fin 1.

(** Row [i] of the transpose is zero from column [i + 1] on. *)
Fixpoint zero_past_diagonal (n i : nat) (T : mat) : Prop :=
  match T with
  | [] => True
  | c :: T' =>
      skipn (S i) c = repeat zero (n - S i) /\ zero_past_diagonal n (S i) T'
  end.

(** The attributes after [s] steps of the loop of
    [get_attribute_from_trace]: the first [s] slots, read row by row,
    hold the attribute [g] of their particle, the others are still zero. *)
Definition filled (g : mat -> vec) (e : list (list mat)) (P M s : nat)
  : list (list vec) :=
  map (fun k =>
         map (fun i => if Nat.ltb (k * P + i) s
                       then g (nth i (nth k e []) [])
                       else repeat zero M)
             (seq 0 P))
      (seq 0 (length e)).

(** A string without the character [c0]. *)
Fixpoint free (c0 : ascii) (s : string) : Prop :=
  match s with
  | EmptyString => True
  | String c s' => Ascii.eqb c c0 = false /\ free c0 s'
  end.

(* ================================================================== *)
(** * Properties *)

(** ** Arithmetic on [num] *)

Ltac rdec :=
  repeat match goal with
         | |- context [Rlt_dec ?a ?b] => destruct (Rlt_dec a b); try lra
         | |- context [Req_dec_T ?a ?b] => destruct (Req_dec_T a b); try lra
         | H : context [Rlt_dec ?a ?b] |- _ => destruct (Rlt_dec a b); try lra
         | H : context [Req_dec_T ?a ?b] |- _ =>
             destruct (Req_dec_T a b); try lra
         end.

Lemma add_NaN_r (x : num) : (x + NaN)%num = NaN.
Proof. destruct x; reflexivity. Qed.

Lemma is_finite_inv (x : num) : is_finite x -> exists r, x = Fin r.
Proof. destruct x; simpl; try contradiction. intros _. now exists r. Qed.

Lemma sum_finite (v : vec) : finite_vec v -> is_finite (sum v).
Proof.
  induction 1 as [|x v Hx _ IH]; simpl; [exact I|].
  apply is_finite_inv in Hx. destruct Hx as [r ->].
  apply is_finite_inv in IH. fold (sum v). destruct IH as [s ->].
  exact I.
Qed.

Lemma sum2_finite (m : mat) : finite_mat m -> is_finite (sum2 m).
Proof.
  intros H. unfold sum2. apply sum_finite.
  induction H; simpl; constructor; auto using sum_finite.
Qed.

(** ** The normal and truncated-normal log-densities *)

Lemma norm_logpdf_finite (x m s : R) :
  s <> 0 -> is_finite (Stats.norm_logpdf (Fin x) (Fin m) (Fin s)).
Proof.
  intros Hs. unfold Stats.norm_logpdf. simpl.
  assert (0 < s * s) by nra.
  assert (0 < 2 * PI * (s * s)) by (pose proof PI_RGT_0; nra).
  rdec. simpl. rdec. exact I.
Qed.

Lemma truncnorm_logpdf_range (x m s : R) :
  s <> 0 -> finite_or_ninf (Stats.truncnorm_logpdf_0_inf (Fin x) (Fin m) (Fin s)).
Proof.
  intros Hs. unfold Stats.truncnorm_logpdf_0_inf.
  destruct (ltb _ zero || ltb PInf _); [exact I|].
  pose proof (norm_logpdf_finite x m Hs) as Hf.
  apply is_finite_inv in Hf. destruct Hf as [r ->].
  simpl. rdec. exact I.
Qed.

Lemma sum_finite_or_ninf (v : vec) :
  Forall finite_or_ninf v -> finite_or_ninf (sum v).
Proof.
  induction 1 as [|x v Hx _ IH]; simpl; [exact I|]. fold (sum v).
  destruct x, (sum v); simpl in *; try contradiction; exact I.
Qed.

(** ** The Bookstein log-priors *)

Lemma get_0 (A : Type) (x : A) (l : list A) : get (x :: l) 0 = Ok x.
Proof. reflexivity. Qed.

Lemma get_1 (A : Type) (x y : A) (l : list A) : get (x :: y :: l) 1 = Ok y.
Proof. reflexivity. Qed.

Lemma bind_Ok (A B : Type) (a : A) (k : A -> result B) : bind (Ok a) k = k a.
Proof. reflexivity. Qed.

Lemma broadcast2_same_length (f : num -> num -> num) (a b : vec) :
  length a = length b -> broadcast2 f a b = Ok (zip_with f a b).
Proof. intros H. unfold broadcast2. rewrite H, Nat.eqb_refl. reflexivity. Qed.

Lemma euclid_log_prior_ok (z : mat) (mu : vec) (sigma : num) :
  Forall (fun row => length row = length mu) z ->
  exists v, Euclid.log_prior z mu sigma = Ok v.
Proof.
  intros H. unfold Euclid.log_prior.
  assert (exists rows,
            mapM (fun row =>
                    broadcast2 (fun x m => Stats.norm_logpdf x m sigma) row mu) z
            = Ok rows) as [rows ->].
  { induction H as [|row z Hrow _ [rows IH]]; simpl; [now eexists|].
    rewrite broadcast2_same_length by exact Hrow. simpl. rewrite IH. simpl.
    now eexists. }
  simpl. now eexists.
Qed.

Lemma zip_with_finite (f : num -> num -> num) (a b : vec) :
  (forall x y, is_finite x -> is_finite y -> is_finite (f x y)) ->
  finite_vec a -> finite_vec b -> finite_vec (zip_with f a b).
Proof.
  intros Hf Ha. revert b.
  induction Ha as [|x a Hx _ IH]; intros b Hb; simpl; [constructor|].
  destruct Hb as [|y b Hy Hb]; constructor; auto. now apply IH.
Qed.

Lemma norm_logpdf_finite' (s : R) (x m : num) :
  s <> 0 -> is_finite x -> is_finite m ->
  is_finite (Stats.norm_logpdf x m (Fin s)).
Proof.
  intros Hs Hx Hm. apply is_finite_inv in Hx. apply is_finite_inv in Hm.
  destruct Hx as [a ->], Hm as [b ->]. now apply norm_logpdf_finite.
Qed.

Lemma euclid_log_prior_finite (z : mat) (mu : vec) (s : R) :
  s <> 0 -> finite_mat z -> finite_vec mu ->
  Forall (fun row => length row = length mu) z ->
  exists r, Euclid.log_prior z mu (Fin s) = Ok (Fin r).
Proof.
  intros Hs Hz Hmu H. unfold Euclid.log_prior.
  assert (exists rows,
            mapM (fun row =>
                    broadcast2 (fun x m => Stats.norm_logpdf x m (Fin s)) row mu) z
            = Ok rows /\ finite_mat rows) as [rows [-> Hrows]].
  { induction H as [|row z Hrow _ IH]; simpl; [eexists; split; [reflexivity|constructor]|].
    inversion Hz as [|? ? Hr Hz']; subst.
    destruct (IH Hz') as [rows [-> Hrows]].
    rewrite broadcast2_same_length by exact Hrow. simpl.
    eexists; split; [reflexivity|]. constructor; [|exact Hrows].
    apply zip_with_finite; auto using norm_logpdf_finite'. }
  simpl. apply sum2_finite in Hrows. apply is_finite_inv in Hrows.
  destruct Hrows as [r ->]. now exists r.
Qed.

Lemma hyp_log_prior_finite (z : mat) (s : R) :
  s <> 0 -> finite_mat z -> is_finite (Hyp.log_prior z (Fin s)).
Proof.
  intros Hs Hz. unfold Hyp.log_prior. apply sum2_finite.
  induction Hz as [|row z Hrow _ IH]; simpl; constructor; [|exact IH].
  induction Hrow; simpl; constructor; auto.
  apply norm_logpdf_finite'; simpl; auto.
Qed.

Lemma ltb_Fin_zero (y : R) : ltb (Fin y) zero = true <-> y < 0.
Proof. unfold ltb, zero. rdec; split; intros; try lra; try discriminate; reflexivity. Qed.

Lemma truncnorm_logpdf_support (x m s : R) :
  0 < s -> m <= x ->
  is_finite (Stats.truncnorm_logpdf_0_inf (Fin x) (Fin m) (Fin s)).
Proof.
  intros Hs Hx. unfold Stats.truncnorm_logpdf_0_inf.
  assert (Hq : 0 <= (x + - m) / s).
  { apply Rmult_le_pos; [lra|]. left. now apply Rinv_0_lt_compat. }
  replace (ltb ((Fin x - Fin m) / Fin s)%num zero) with false.
  2:{ cbn [sub opp add div]. destruct (Req_dec_T s 0) as [? | _]; [lra|].
      unfold ltb, zero. destruct (Rlt_dec ((x + - m) / s) 0); [lra|reflexivity]. }
  replace (ltb PInf ((Fin x - Fin m) / Fin s)%num) with false.
  2:{ cbn [sub opp add div]. destruct (Req_dec_T s 0) as [? | _]; [lra|].
      reflexivity. }
  cbn [orb].
  assert (Hs' : s <> 0) by lra.
  pose proof (norm_logpdf_finite x m Hs') as Hf.
  apply is_finite_inv in Hf. destruct Hf as [r ->].
  simpl. rdec. exact I.
Qed.

(** The value of the Euclidean prior in the two cases of the orientation
    constraint. *)
Lemma euclid_bookstein_cases
    (x0 : num) (y : R) (r0 : vec) (rest : mat) (mu : vec) (s : R) :
  s <> 0 ->
  finite_mat ((x0 :: Fin y :: r0) :: rest) -> finite_vec mu ->
  Forall (fun row => length row = length mu) ((x0 :: Fin y :: r0) :: rest) ->
  exists q,
    Euclid.bookstein_log_prior ((x0 :: Fin y :: r0) :: rest) mu (Fin s)
    = Ok (if ltb (Fin y) zero then NInf else Fin q).
Proof.
  intros Hs Hz Hmu Hlen.
  inversion Hz as [|? ? Hz0 Hrest]; subst.
  inversion Hlen as [|? ? Hl0 Hlrest]; subst.
  unfold Euclid.bookstein_log_prior. cbn [tl].
  destruct (euclid_log_prior_finite Hs Hrest Hmu Hlrest) as [r ->].
  rewrite bind_Ok, get_0, bind_Ok.
  rewrite broadcast2_same_length by exact Hl0.
  rewrite bind_Ok, get_1, bind_Ok.
  assert (Hf : is_finite
            (sum (zip_with (fun x m => Stats.norm_logpdf x m (Fin s))
                           (x0 :: Fin y :: r0) mu))).
  { apply sum_finite, zip_with_finite; auto using norm_logpdf_finite'. }
  apply is_finite_inv in Hf. destruct Hf as [q ->].
  exists (r + (ln 2 + q + 0)).
  destruct (ltb (Fin y) zero); unfold mul_pred, log, zero; rdec; reflexivity.
Qed.

(** The value of the hyperbolic prior in the two cases of the orientation
    constraint; [v] is finite when every entry of [_zb_x] lies in the
    support of its truncated normal. *)
Lemma hyp_bookstein_cases
    (x0 : num) (y : R) (r0 : vec) (rest : mat) (zbx : vec) (s bdist : R) :
  s <> 0 ->
  finite_mat ((x0 :: Fin y :: r0) :: rest) -> finite_vec zbx ->
  exists v,
    Hyp.bookstein_log_prior (Fin bdist) ((x0 :: Fin y :: r0) :: rest) zbx
      (Fin s)
    = Ok (if ltb (Fin y) zero then NInf else v) /\
    (0 < s -> Forall (fun x => exists a, x = Fin a /\ - bdist <= a) zbx ->
     is_finite v).
Proof.
  intros Hs Hz Hzbx.
  inversion Hz as [|? ? Hz0 Hrest]; subst.
  unfold Hyp.bookstein_log_prior. cbn [tl].
  rewrite get_0, bind_Ok, get_1, bind_Ok.
  pose proof (hyp_log_prior_finite Hs Hrest) as Hf.
  apply is_finite_inv in Hf. destruct Hf as [q ->].
  assert (Hp : is_finite
            (sum (map (fun x => Stats.norm_logpdf x zero (Fin s))
                      (x0 :: Fin y :: r0)))).
  { apply sum_finite. clear -Hz0 Hs.
    induction Hz0; simpl; constructor; auto.
    apply norm_logpdf_finite'; simpl; auto. }
  apply is_finite_inv in Hp. destruct Hp as [q' ->].
  assert (Hx : finite_or_ninf
            (sum (map (fun x => Stats.truncnorm_logpdf_0_inf x
                                  (- Fin bdist)%num (Fin s)) zbx))).
  { apply sum_finite_or_ninf. clear -Hzbx Hs.
    induction Hzbx as [|x l Hx _ IH]; simpl; constructor; auto.
    apply is_finite_inv in Hx. destruct Hx as [a ->].
    now apply truncnorm_logpdf_range. }
  assert (Hx' : 0 < s ->
            Forall (fun x => exists a, x = Fin a /\ - bdist <= a) zbx ->
            is_finite
              (sum (map (fun x => Stats.truncnorm_logpdf_0_inf x
                                    (- Fin bdist)%num (Fin s)) zbx))).
  { intros Hpos Hsup. apply sum_finite. clear -Hsup Hpos.
    induction Hsup as [|x l [a [-> Ha]] _ IH]; simpl; constructor; auto.
    now apply truncnorm_logpdf_support. }
  destruct (sum (map _ zbx)) as [t| | |] eqn:Et;
    simpl in Hx; try contradiction.
  - exists (Fin (q + t + (ln 2 + q' + - 0))). split.
    + destruct (ltb (Fin y) zero); unfold mul_pred, log, zero; rdec;
        reflexivity.
    + intros _ _. exact I.
  - exists NInf. split.
    + destruct (ltb (Fin y) zero); unfold mul_pred, log, zero; rdec;
        reflexivity.
    + intros Hpos Hsup. exact (Hx' Hpos Hsup).
Qed.

(** The orientation constraint violated: both priors are [-inf] (finite
    positions, finite non-zero [sigma], [mu] as long as a row). *)
Lemma bookstein_log_prior_violated
    (x0 : num) (y : R) (r0 : vec) (rest : mat)
    (mu zbx : vec) (s bdist : R) :
  let z := (x0 :: Fin y :: r0) :: rest in
  y < 0 -> s <> 0 ->
  finite_mat z -> finite_vec mu -> finite_vec zbx ->
  Forall (fun row => length row = length mu) z ->
  Euclid.bookstein_log_prior z mu (Fin s) = Ok NInf /\
  Hyp.bookstein_log_prior (Fin bdist) z zbx (Fin s) = Ok NInf.
Proof.
  intros z Hy Hs Hz Hmu Hzbx Hlen. subst z.
  assert (Hlt : ltb (Fin y) zero = true) by now apply ltb_Fin_zero.
  destruct (euclid_bookstein_cases Hs Hz Hmu Hlen) as [q Eq].
  destruct (@hyp_bookstein_cases x0 y r0 rest zbx s bdist Hs Hz Hzbx)
    as [v [Ev _]].
  rewrite Hlt in Eq, Ev. now split.
Qed.



(** ** The exponential map *)

(** With the array itself as upper bound, [jnp.clip(lor, eps, lor)] gives
    back [lor]: the minimum with [lor] undoes the maximum with [eps]. *)
Lemma clip_upper_self (l : num) (e : R) : clip l (Fin e) l = l.
Proof.
  unfold clip. destruct l; simpl; try reflexivity.
  f_equal. unfold Rmin, Rmax.
  destruct (Rle_dec e r); destruct (Rle_dec r _); lra.
Qed.

Lemma lorentzian_zero3 :
  Helper.lorentzian [[Fin 0; Fin 0; Fin 0]] [[Fin 0; Fin 0; Fin 0]] = [Fin 0].
Proof.
  unfold Helper.lorentzian, Helper.signs_row. simpl.
  do 2 f_equal. ring.
Qed.

Lemma sqrt_Fin_0 : sqrt (Fin 0) = Fin 0.
Proof. unfold sqrt. rdec. now rewrite sqrt_0. Qed.

(** C5 (code bug).  The divisor of [exponential_map] is not clipped: for
    every tangent array [u] and every finite [eps] it is the square root of
    the Lorentzian self-product itself, so at a zero tangent vector the
    divisor is 0 and the mapped point is NaN (0/0) whatever the base point. *)
Theorem exponential_map_divisor_unclipped (u : mat) (e : R) :
  Helper.u_norm u (Fin e) = map sqrt (Helper.lorentzian u u) /\
  Helper.u_norm [[Fin 0; Fin 0; Fin 0]] (Fin e) = [Fin 0] /\
  forall m0 m1 m2 : num,
    Helper.exponential_map [[m0; m1; m2]] [[Fin 0; Fin 0; Fin 0]] (Fin e)
    = [[NaN; NaN; NaN]].
Proof.
  assert (Hn : forall v, Helper.u_norm v (Fin e)
                         = map sqrt (Helper.lorentzian v v)).
  { intros v. unfold Helper.u_norm. apply map_ext. intros l.
    now rewrite clip_upper_self. }
  assert (H0 : Helper.u_norm [[Fin 0; Fin 0; Fin 0]] (Fin e) = [Fin 0]).
  { rewrite Hn, lorentzian_zero3. cbn [map]. now rewrite sqrt_Fin_0. }
  split; [apply Hn | split; [exact H0 |]].
  intros m0 m1 m2. unfold Helper.exponential_map. rewrite H0.
  unfold Helper.row_scale, mat_zip. cbn [map zip_with].
  assert (Hd : (sinh (Fin 0) * Fin 0 / Fin 0)%num = NaN).
  { unfold sinh, mul, div, signed_inf. rewrite sinh_0. rdec. reflexivity. }
  now rewrite Hd, !add_NaN_r.
Qed.

(** ** The hyperbolic link function *)

Lemma d_to_p_Fin (a e : R) :
  Hyp.d_to_p [Fin a] (Fin e)
  = [Fin (Rmin (1 + - e) (Rmax e (Rtrigo_def.exp (- (a * a)))))].
Proof. reflexivity. Qed.

Lemma d_to_p_PInf (e : R) :
  Hyp.d_to_p [PInf] (Fin e) = [Fin (Rmin (1 + - e) (Rmax e 0))].
Proof. reflexivity. Qed.

Lemma d_to_p_cons (x : num) (d : vec) (eps : num) :
  Hyp.d_to_p (x :: d) eps = Hyp.d_to_p [x] eps ++ Hyp.d_to_p d eps.
Proof. reflexivity. Qed.

Lemma clip_mono (e v w : R) :
  v <= w -> Rmin (1 + - e) (Rmax e v) <= Rmin (1 + - e) (Rmax e w).
Proof.
  intros H.
  assert (Rmax e v <= Rmax e w).
  { apply Rmax_lub; [apply Rmax_l |].
    apply Rle_trans with w; [exact H | apply Rmax_r]. }
  apply Rmin_glb; [apply Rmin_l |].
  apply Rle_trans with (Rmax e v); [apply Rmin_r | assumption].
Qed.

Lemma exp_neg_sq_mono (x y : R) :
  0 <= x -> x <= y ->
  Rtrigo_def.exp (- (y * y)) <= Rtrigo_def.exp (- (x * x)).
Proof.
  intros Hx Hxy.
  destruct (Req_dec (x * x) (y * y)) as [E | NE].
  - rewrite E. lra.
  - left. apply exp_increasing. nra.
Qed.

(** C10.  The hyperbolic link is non-increasing in the distance: for
    distances [0 <= d1 <= d2] (entry by entry, [d2] possibly infinite) and
    a finite [eps], [d_to_p(d2) <= d_to_p(d1)]. *)
Theorem d_to_p_antitone (d1 d2 : vec) (e : R) :
  Forall2 (fun a b => num_le zero a /\ num_le a b) d1 d2 ->
  Forall2 num_le (Hyp.d_to_p d2 (Fin e)) (Hyp.d_to_p d1 (Fin e)).
Proof.
  induction 1 as [|a b d1 d2 [H0 Hab] _ IH]; [constructor|].
  rewrite (d_to_p_cons b), (d_to_p_cons a).
  destruct a as [x| | |], b as [y| | |]; simpl in H0, Hab; try contradiction.
  - rewrite !d_to_p_Fin. constructor; [|exact IH].
    simpl. apply clip_mono. now apply exp_neg_sq_mono.
  - rewrite d_to_p_Fin, d_to_p_PInf. constructor; [|exact IH].
    simpl. apply clip_mono. left. apply exp_pos.
  - rewrite !d_to_p_PInf. constructor; [|exact IH]. simpl. lra.
Qed.

Lemma d_to_p_antitone_witness :
  Forall2 (fun a b => num_le zero a /\ num_le a b) [Fin 1; Fin 0] [Fin 2; PInf]
  /\ Forall2 num_le (Hyp.d_to_p [Fin 2; PInf] (Fin (1 / 100000)))
                    (Hyp.d_to_p [Fin 1; Fin 0] (Fin (1 / 100000))).
Proof.
  assert (H : Forall2 (fun a b => num_le zero a /\ num_le a b)
                [Fin 1; Fin 0] [Fin 2; PInf]).
  { repeat constructor; simpl; lra. }
  split; [exact H |].
  exact (@d_to_p_antitone [Fin 1; Fin 0] [Fin 2; PInf] (1 / 100000) H).
Defined.

(** ** Matrices given entry by entry *)

Lemma zip_with_map (A B C D : Type) (f : B -> C -> D) (g : A -> B)
    (h : A -> C) (l : list A) :
  zip_with f (map g l) (map h l) = map (fun x => f (g x) (h x)) l.
Proof. induction l; simpl; congruence. Qed.

Lemma mat_zip_table (f : num -> num -> num) (F G : vec -> vec -> num)
    (a b : mat) :
  mat_zip f (table F a b) (table G a b)
  = table (fun x y => f (F x y) (G x y)) a b.
Proof.
  unfold mat_zip, table. rewrite zip_with_map. apply map_ext. intros x.
  apply zip_with_map.
Qed.

Lemma mat_map_table (f : num -> num) (F : vec -> vec -> num) (a b : mat) :
  mat_map f (table F a b) = table (fun x y => f (F x y)) a b.
Proof.
  unfold mat_map, table. rewrite map_map. apply map_ext. intros x.
  apply map_map.
Qed.

Lemma outer_map (g h : vec -> num) (a b : mat) :
  outer (map g a) (map h b) = table (fun x y => (g x * h y)%num) a b.
Proof.
  unfold outer, table. rewrite map_map. apply map_ext. intros x.
  apply map_map.
Qed.

Lemma table_map_l (F : vec -> vec -> num) (g : vec -> vec) (a b : mat) :
  table F (map g a) b = table (fun x y => F (g x) y) a b.
Proof. unfold table. apply map_map. Qed.

Lemma diag_from_table (F : vec -> vec -> num) (pre l : mat) :
  diag_from (length pre) (map (fun x => map (F x) (pre ++ l)) l)
  = map (fun x => F x x) l.
Proof.
  revert pre. induction l as [|x l IH]; intros pre; [reflexivity|].
  cbn [map diag_from]. f_equal.
  - rewrite nth_indep with (d' := F x x)
      by (rewrite length_map, length_app; simpl; lia).
    rewrite map_nth. f_equal. now rewrite nth_middle.
  - specialize (IH (pre ++ [x])). rewrite length_app in IH. simpl in IH.
    rewrite Nat.add_1_r in IH. rewrite <- app_assoc in IH. exact IH.
Qed.

Lemma diag_table (F : vec -> vec -> num) (z : mat) :
  diag (table F z z) = map (fun x => F x x) z.
Proof. exact (diag_from_table F [] z). Qed.

Lemma entry_table (F : vec -> vec -> num) (a b : mat) (i j : nat) :
  (i < length a)%nat -> (j < length b)%nat ->
  entry (table F a b) i j = F (nth i a []) (nth j b []).
Proof.
  intros Hi Hj. unfold entry, table.
  rewrite nth_indep with (d' := map (F []) b) by (rewrite length_map; lia).
  rewrite (map_nth (fun x => map (F x) b)).
  rewrite nth_indep with (d' := F (nth i a []) [])
    by (rewrite length_map; lia).
  now rewrite map_nth.
Qed.

Lemma set_nth_nth (i j : nat) (v d : num) (row : vec) :
  nth j (set_nth i v row) d
  = if Nat.eqb i j then (if Nat.ltb j (length row) then v else d)
    else nth j row d.
Proof.
  revert i j. induction row as [|x row IH]; intros [|i] [|j]; simpl;
    try reflexivity.
  - now destruct (Nat.eqb i j).
  - rewrite IH. destruct (Nat.eqb i j); [|reflexivity].
    repeat match goal with
           | |- context [Nat.ltb ?a ?b] => destruct (Nat.ltb_spec a b)
           end; (reflexivity || lia).
Qed.

Lemma set_diag_from_nth (k i : nat) (v : num) (m : mat) :
  (i < length m)%nat ->
  nth i (set_diag_from k v m) [] = set_nth (k + i) v (nth i m []).
Proof.
  revert k i. induction m as [|row m IH]; intros k [|i] Hi; simpl in *;
    try lia.
  - now rewrite Nat.add_0_r.
  - rewrite IH by lia. f_equal. lia.
Qed.

Lemma entry_set_diag (v : num) (m : mat) (i j : nat) :
  (i < length m)%nat -> (j < length (nth i m []))%nat ->
  entry (set_diag v m) i j = if Nat.eqb i j then v else entry m i j.
Proof.
  intros Hi Hj. unfold entry, set_diag.
  rewrite set_diag_from_nth by exact Hi. simpl. rewrite set_nth_nth.
  destruct (Nat.eqb i j); [|reflexivity].
  destruct (Nat.ltb_spec j (length (nth i m []))); [reflexivity | lia].
Qed.

Lemma table_row_length (F : vec -> vec -> num) (a b : mat) (i : nat) :
  (i < length a)%nat -> length (nth i (table F a b) []) = length b.
Proof.
  intros Hi. unfold table.
  rewrite nth_indep with (d' := map (F []) b) by (rewrite length_map; lia).
  rewrite (map_nth (fun x => map (F x) b)). apply length_map.
Qed.

(** ** The distance matrices *)

Lemma add_comm (x y : num) : (x + y)%num = (y + x)%num.
Proof. destruct x, y; simpl; try reflexivity. f_equal. ring. Qed.

Lemma mul_comm (x y : num) : (x * y)%num = (y * x)%num.
Proof. destruct x, y; simpl; try reflexivity. f_equal. ring. Qed.

Lemma zip_with_comm (f : num -> num -> num) (a b : vec) :
  (forall x y, f x y = f y x) -> zip_with f a b = zip_with f b a.
Proof.
  intros Hf. revert b. induction a as [|x a IH]; intros [|y b]; simpl;
    try reflexivity.
  now rewrite Hf, IH.
Qed.

Lemma dot_comm (a b : vec) : dot a b = dot b a.
Proof. unfold dot. now rewrite (zip_with_comm mul a b mul_comm). Qed.

Lemma dot_finite (a b : vec) :
  finite_vec a -> finite_vec b -> is_finite (dot a b).
Proof.
  intros Ha Hb. unfold dot. apply sum_finite, zip_with_finite; auto.
  intros x y Hx Hy. apply is_finite_inv in Hx, Hy.
  destruct Hx as [r ->], Hy as [s ->]. exact I.
Qed.

Lemma nth_finite (z : mat) (i : nat) : finite_mat z -> finite_vec (nth i z []).
Proof.
  intros Hz. destruct (Nat.lt_ge_cases i (length z)) as [Hi | Hi].
  - unfold finite_mat in Hz. rewrite Forall_forall in Hz. apply Hz.
    now apply nth_In.
  - rewrite nth_overflow by exact Hi. constructor.
Qed.

Lemma euclidean_distance_table (z : mat) :
  Helper.euclidean_distance z = table euclid_entry z z.
Proof.
  unfold Helper.euclidean_distance.
  change (dot_T z z) with (table dot z z).
  rewrite diag_table, map_map.
  rewrite (outer_map (fun _ => one) (fun x => dot x x)).
  rewrite (outer_map (fun x => dot x x) (fun _ => one)).
  rewrite mat_map_table, !mat_zip_table, !mat_map_table.
  reflexivity.
Qed.

Lemma euclid_entry_sym (x y : vec) : euclid_entry x y = euclid_entry y x.
Proof.
  unfold euclid_entry. rewrite (dot_comm y x).
  rewrite (add_comm (one * dot y y)), (mul_comm (dot x x) one),
    (mul_comm one (dot y y)).
  reflexivity.
Qed.

Lemma euclid_entry_nonneg (x y : vec) :
  finite_vec x -> finite_vec y ->
  exists r, euclid_entry x y = Fin r /\ 0 <= r.
Proof.
  intros Hx Hy. unfold euclid_entry.
  pose proof (dot_finite Hx Hx) as Hxx. pose proof (dot_finite Hy Hy) as Hyy.
  pose proof (dot_finite Hx Hy) as Hxy.
  apply is_finite_inv in Hxx, Hyy, Hxy.
  destruct Hxx as [a ->], Hyy as [b ->], Hxy as [c ->].
  simpl. destruct (Rlt_dec (Rmax _ 0) 0) as [Hlt | _].
  - exfalso. pose proof (Rmax_r (1 * b + a * 1 + - (2 * c)) 0). lra.
  - eexists; split; [reflexivity | apply sqrt_pos].
Qed.

Lemma euclid_entry_diag (x : vec) :
  finite_vec x -> euclid_entry x x = Fin 0.
Proof.
  intros Hx. unfold euclid_entry.
  pose proof (dot_finite Hx Hx) as Hxx. apply is_finite_inv in Hxx.
  destruct Hxx as [a ->]. simpl.
  replace (1 * a + a * 1 + - (2 * a)) with 0 by ring.
  rewrite Rmax_left by lra. rdec. now rewrite sqrt_0.
Qed.

Lemma zip_with_map_l (A B C : Type) (f : B -> A -> C) (g : A -> B)
    (l : list A) :
  zip_with f (map g l) l = map (fun x => f (g x) x) l.
Proof. induction l; simpl; congruence. Qed.

Lemma lorentz_distance_table (z : mat) :
  Helper.lorentz_distance z = set_diag zero (table lorentz_entry z z).
Proof.
  unfold Helper.lorentz_distance. f_equal.
  unfold mat_zip. rewrite zip_with_map_l.
  change (dot_T ?a z) with (table dot a z).
  rewrite (table_map_l dot), mat_map_table. reflexivity.
Qed.

Lemma ones_dot_sym (a b : vec) :
  finite_vec a -> finite_vec b ->
  dot (zip_with mul (map (fun _ => one) a) a) b
  = dot (zip_with mul (map (fun _ => one) b) b) a.
Proof.
  intros Ha. revert b. induction Ha as [|x a Hx _ IH]; intros b Hb.
  - destruct b; reflexivity.
  - destruct Hb as [|y b Hy Hb]; [reflexivity|].
    apply is_finite_inv in Hx, Hy. destruct Hx as [r ->], Hy as [s ->].
    unfold dot in *. cbn [map zip_with sum fold_right].
    fold (sum (zip_with mul (zip_with mul (map (fun _ => one) a) a) b)).
    fold (sum (zip_with mul (zip_with mul (map (fun _ => one) b) b) a)).
    rewrite (IH b Hb). clear IH. simpl.
    destruct (sum _); try reflexivity. f_equal. ring.
Qed.

Lemma lorentz_dot_sym (x y : vec) :
  finite_vec x -> finite_vec y ->
  dot (zip_with mul (Helper.signs_row x) x) y
  = dot (zip_with mul (Helper.signs_row y) y) x.
Proof.
  intros Hx Hy. destruct Hx as [|a x Ha Hx]; [destruct y; reflexivity|].
  destruct Hy as [|b y Hb Hy]; [reflexivity|].
  pose proof (ones_dot_sym Hx Hy) as E.
  apply is_finite_inv in Ha, Hb. destruct Ha as [r ->], Hb as [s ->].
  unfold dot in *. unfold Helper.signs_row.
  cbn [map set_nth zip_with sum fold_right].
  fold (sum (zip_with mul (zip_with mul (map (fun _ => one) x) x) y)).
  fold (sum (zip_with mul (zip_with mul (map (fun _ => one) y) y) x)).
  rewrite E. clear E. simpl. destruct (sum _); try reflexivity. f_equal. ring.
Qed.

Lemma signed_row_finite (x : vec) :
  finite_vec x -> finite_vec (zip_with mul (Helper.signs_row x) x).
Proof.
  intros Hx. apply zip_with_finite; auto.
  - intros a b Ha Hb. apply is_finite_inv in Ha, Hb.
    destruct Ha as [r ->], Hb as [s ->]. exact I.
  - unfold Helper.signs_row. destruct Hx; simpl; constructor; simpl; auto.
    clear. induction l; simpl; constructor; simpl; auto.
Qed.

Lemma arccosh_nonneg (x : R) :
  exists r, Helper.arccosh (Fin x) = Fin r /\ 0 <= r.
Proof.
  unfold Helper.arccosh. simpl.
  set (c := Rmax x 1).
  assert (Hc : 1 <= c) by apply Rmax_r.
  assert (Hs : 0 <= c * c + - (1)) by nra.
  destruct (Rlt_dec (c * c + - (1)) 0) as [? | _]; [lra|].
  simpl.
  pose proof (sqrt_pos (c * c + - (1))) as Hq.
  destruct (Rlt_dec 0 (c + R_sqrt.sqrt (c * c + - (1)))) as [Hp | ?]; [|lra].
  eexists; split; [reflexivity|].
  destruct (Req_dec (c + R_sqrt.sqrt (c * c + - (1))) 1) as [E | NE].
  - rewrite E, ln_1. lra.
  - left. rewrite <- ln_1. apply ln_increasing; lra.
Qed.

Lemma lorentz_entry_nonneg (x y : vec) :
  finite_vec x -> finite_vec y ->
  exists r, lorentz_entry x y = Fin r /\ 0 <= r.
Proof.
  intros Hx Hy. unfold lorentz_entry.
  pose proof (dot_finite (signed_row_finite Hx) Hy) as Hd.
  apply is_finite_inv in Hd. destruct Hd as [d ->].
  apply arccosh_nonneg.
Qed.

(** ** Symmetry, sign and diagonal *)

Lemma finite_vec_map_Fin (v : vec) :
  finite_vec v -> exists xs, v = map Fin xs.
Proof.
  induction 1 as [|x v Hx _ [xs ->]]; [now exists []|].
  apply is_finite_inv in Hx. destruct Hx as [r ->]. now exists (r :: xs).
Qed.

Lemma rdot_cons (a b : R) (x y : list R) :
  rdot (a :: x) (b :: y) = a * b + rdot x y.
Proof. reflexivity. Qed.

Lemma rdot_self_nonneg (x : list R) : 0 <= rdot x x.
Proof.
  induction x as [|a x IH]; [unfold rdot; simpl; lra|].
  rewrite rdot_cons. nra.
Qed.

Lemma arccosh_Fin (c : R) :
  Helper.arccosh (Fin c)
  = Fin (ln (Rmax c 1 + R_sqrt.sqrt (Rmax c 1 * Rmax c 1 + - (1)))).
Proof.
  unfold Helper.arccosh. simpl.
  set (m := Rmax c 1).
  assert (Hm : 1 <= m) by apply Rmax_r.
  destruct (Rlt_dec (m * m + - (1)) 0) as [? | _]; [nra|].
  simpl. pose proof (sqrt_pos (m * m + - (1))).
  destruct (Rlt_dec 0 (m + R_sqrt.sqrt (m * m + - (1)))) as [_ | ?]; [|lra].
  reflexivity.
Qed.

(** C6 (amended).  For every array of finite latent positions, the
    matrices returned by [euclidean_distance] and [lorentz_distance] are
    symmetric, their entries are finite and non-negative, and their
    diagonal entries are exactly zero. *)
Theorem distance_matrices_symmetric_nonneg_zero_diagonal
    (z : mat) (i j : nat) :
  finite_mat z -> (i < length z)%nat -> (j < length z)%nat ->
  (entry (Helper.euclidean_distance z) i j
   = entry (Helper.euclidean_distance z) j i /\
   (exists r, entry (Helper.euclidean_distance z) i j = Fin r /\ 0 <= r) /\
   entry (Helper.euclidean_distance z) i i = Fin 0) /\
  (entry (Helper.lorentz_distance z) i j
   = entry (Helper.lorentz_distance z) j i /\
   (exists r, entry (Helper.lorentz_distance z) i j = Fin r /\ 0 <= r) /\
   entry (Helper.lorentz_distance z) i i = Fin 0).
Proof.
  intros Hz Hi Hj.
  pose proof (nth_finite i Hz) as Hzi. pose proof (nth_finite j Hz) as Hzj.
  split.
  - rewrite euclidean_distance_table, !entry_table by assumption.
    split; [apply euclid_entry_sym | split].
    + now apply euclid_entry_nonneg.
    + now apply euclid_entry_diag.
  - rewrite lorentz_distance_table.
    assert (Hlen : forall a b, (a < length z)%nat -> (b < length z)%nat ->
              entry (set_diag zero (table lorentz_entry z z)) a b
              = if Nat.eqb a b then zero
                else lorentz_entry (nth a z []) (nth b z [])).
    { intros a b Ha Hb. rewrite entry_set_diag.
      - now rewrite entry_table.
      - unfold table. now rewrite length_map.
      - now rewrite table_row_length. }
    rewrite !Hlen by assumption. rewrite Nat.eqb_refl, (Nat.eqb_sym j i).
    destruct (Nat.eqb_spec i j) as [Heq | Hne].
    + split; [reflexivity | split; [|reflexivity]].
      exists 0. split; [reflexivity | lra].
    + split; [|split; [|reflexivity]].
      * unfold lorentz_entry. now rewrite (lorentz_dot_sym Hzi Hzj).
      * now apply lorentz_entry_nonneg.
Qed.

Lemma distance_matrices_symmetric_nonneg_zero_diagonal_witness :
  let z := [[Fin 1; Fin 0; Fin 0]; [Fin 3; Fin 2; Fin 2]] in
  (entry (Helper.euclidean_distance z) 0 1
   = entry (Helper.euclidean_distance z) 1 0 /\
   (exists r, entry (Helper.euclidean_distance z) 0 1 = Fin r /\ 0 <= r) /\
   entry (Helper.euclidean_distance z) 0 0 = Fin 0) /\
  (entry (Helper.lorentz_distance z) 0 1
   = entry (Helper.lorentz_distance z) 1 0 /\
   (exists r, entry (Helper.lorentz_distance z) 0 1 = Fin r /\ 0 <= r) /\
   entry (Helper.lorentz_distance z) 0 0 = Fin 0).
Proof.
  intros z.
  apply (@distance_matrices_symmetric_nonneg_zero_diagonal z 0 1).
  - repeat constructor.
  - simpl. lia.
  - simpl. lia.
Defined.

(** The zeros are not confined to the diagonal: two rows that hold the
    same point (here the point (1, 0, 0) of the hyperboloid) are at
    distance zero from each other in both matrices. *)
Lemma distance_zero_off_diagonal :
  let z := [[Fin 1; Fin 0; Fin 0]; [Fin 1; Fin 0; Fin 0]] in
  0%nat <> 1%nat /\
  entry (Helper.euclidean_distance z) 0 1 = Fin 0 /\
  entry (Helper.lorentz_distance z) 0 1 = Fin 0.
Proof.
  intros z. split; [discriminate|]. split.
  - subst z. rewrite euclidean_distance_table.
    rewrite entry_table by (simpl; lia).
    cbn [nth]. now apply euclid_entry_diag; repeat constructor.
  - subst z. rewrite lorentz_distance_table.
    unfold entry, set_diag, table, lorentz_entry. cbn.
    unfold Helper.arccosh, dot, sum. cbn.
    replace (Rmax (- (-1 * 1 * 1 + (1 * 0 * 0 + (1 * 0 * 0 + 0)))) 1) with 1
      by (rewrite Rmax_right; lra).
    replace (1 * 1 + - (1)) with 0 by ring.
    destruct (Rlt_dec 0 0) as [? | _]; [lra|].
    rewrite sqrt_0. cbn. replace (1 + 0) with 1 by ring.
    destruct (Rlt_dec 0 1) as [_ | ?]; [|lra]. now rewrite ln_1.
Qed.

(** Two points of the hyperboloid. *)
Lemma on_hyperboloid_examples :
  on_hyperboloid [Fin 1; Fin 0; Fin 0] /\ on_hyperboloid [Fin 3; Fin 2; Fin 2].
Proof.
  split.
  - exists 1, [0; 0]. repeat split; [lra | unfold rdot; simpl; lra].
  - exists 3, [2; 2]. repeat split; [lra | unfold rdot; simpl; lra].
Qed.

(** Off the diagonal the Euclidean distance is zero as well when two
    points coincide. *)
Lemma euclidean_distance_coincident_points (z : mat) (i j : nat) :
  finite_mat z -> (i < length z)%nat -> (j < length z)%nat ->
  nth i z [] = nth j z [] ->
  entry (Helper.euclidean_distance z) i j = Fin 0.
Proof.
  intros Hz Hi Hj E.
  rewrite euclidean_distance_table, entry_table by assumption.
  rewrite E. apply euclid_entry_diag. now apply nth_finite.
Qed.

(** ** The link functions *)








Lemma hyp_p_range (e a : R) :
  0 < e <= 1 / 2 ->
  e <= Rmin (1 + - e) (Rmax e (Rtrigo_def.exp (- (a * a)))) <= 1 - e.
Proof.
  intros He. split.
  - apply Rmin_glb; [lra | apply Rmax_l].
  - pose proof (Rmin_l (1 + - e) (Rmax e (Rtrigo_def.exp (- (a * a))))). lra.
Qed.




(** ** The log-likelihoods *)

(** The hyperbolic [log_likelihood] is the sum, over the observation rows
    and the edges, of the Bernoulli log-mass under [p = d_to_p(d)]. *)
Lemma hyp_log_likelihood_is_bernoulli_sum
    (mu : vec) (_z obs : mat) (eps : num) (prm : params) :
  Hyp.get_det_params _z mu eps = Ok prm ->
  Forall (fun o => length o = length (p_p prm)) obs ->
  p_p prm = Hyp.d_to_p (p_d prm) eps /\
  Hyp.log_likelihood mu _z obs eps
  = Ok (sum2 (map (fun o => zip_with Bernoulli.logpmf o (p_p prm)) obs)).
Proof.
  intros Hprm Hobs. split.
  - unfold Hyp.get_det_params in Hprm.
    destruct (negb _); [discriminate|]. injection Hprm as <-. reflexivity.
  - unfold Hyp.log_likelihood. rewrite Hprm, bind_Ok.
    unfold Bernoulli.logpmf_sum.
    assert (E : mapM (fun o => broadcast2 Bernoulli.logpmf o (p_p prm)) obs
                = Ok (map (fun o => zip_with Bernoulli.logpmf o (p_p prm)) obs)).
    { induction Hobs as [|o obs Ho _ IH]; [reflexivity|].
      cbn [mapM map]. rewrite broadcast2_same_length by exact Ho.
      now rewrite bind_Ok, IH. }
    now rewrite E.
Qed.

(** [get_det_params] is bound in the Euclidean module, [get_all_params]
    is not. *)
Lemma get_det_params_bound :
  Euclid.lookup_global "get_det_params" Euclid.module_globals
  = Ok (Euclid.GParams Euclid.get_det_params).
Proof. reflexivity. Qed.

Lemma get_all_params_unbound :
  Euclid.lookup_global "get_all_params" Euclid.module_globals
  = Raise NameError.
Proof. reflexivity. Qed.

(** C3 (code bug).  The Euclidean [log_likelihood] calls [get_all_params],
    a name that the module binds nowhere (the function defined there is
    [get_det_params]): every call raises [NameError] and no sum of
    Bernoulli log-masses is returned. *)
Theorem euclid_log_likelihood_raises_name_error (z obs : mat) (eps : num) :
  Euclid.log_likelihood z obs eps = Raise NameError.
Proof.
  unfold Euclid.log_likelihood.
  rewrite get_all_params_unbound.
  reflexivity.
Qed.

(** ** The tempering loop *)

Lemma mapM_raise (A B : Type) (f : A -> result B) (l : list A) (e : exn) :
  mapM f l = Raise e -> exists a, In a l /\ f a = Raise e.
Proof.
  induction l as [|a l IH]; simpl; [discriminate|].
  destruct (f a) as [b | e'] eqn:Ea; simpl.
  - destruct (mapM f l) as [bs | e'']; simpl; [discriminate|].
    intros H. injection H as ->. destruct (IH eq_refl) as [a' [Hin Ha']].
    exists a'. auto.
  - intros H. injection H as ->. exists a. auto.
Qed.

Lemma broadcast2_raise (f : num -> num -> num) (a b : vec) (e : exn) :
  broadcast2 f a b = Raise e -> e = ValueError.
Proof.
  unfold broadcast2. destruct (Nat.eqb _ _); [discriminate|].
  destruct a as [|x [|? ?]], b as [|y [|? ?]]; try discriminate;
    intros H; now injection H.
Qed.

Lemma euclid_initialize_raise
    (mu : vec) (sigma : num) (key : Type)
    (split_at : key -> nat -> nat -> key)
    (random_normal : key -> list nat -> nat -> num)
    (smc_bookstein_position : list mat -> list mat)
    (k : key) (P : nat) (shape : nat * nat) (e : exn) :
  Euclid.initialize_bkst_particles mu sigma split_at random_normal
    smc_bookstein_position k P shape = Raise e ->
  e = ValueError.
Proof.
  unfold Euclid.initialize_bkst_particles. destruct shape as [N D].
  cbn [Jax.split map seq].
  destruct (mapM _ _) as [draws | e'] eqn:E; simpl; [discriminate|].
  intros H. injection H as ->.
  apply mapM_raise in E. destruct E as [m [_ E]].
  apply mapM_raise in E. destruct E as [row [_ E]].
  now apply broadcast2_raise in E.
Qed.

Lemma euclid_loop_raises
    (key : Type) (split_at : key -> nat -> nat -> key) (fuel : nat) (k : key)
    (smc_kernel : key -> TemperedSMCState -> TemperedSMCState * SMCInfo)
    (initial_state : TemperedSMCState) :
  Euclid.smc_bkst_inference_loop split_at fuel k smc_kernel initial_state
  = Some (Raise ValueError).
Proof. reflexivity. Qed.

(** C2 (code bug).  Whatever the observations, the keys, the
    hyper-parameters and the sampler, the Euclidean [get_LSM_embedding]
    returns nothing: the loop body unpacks five values from the
    four-value carry, so the call stops with a [ValueError] before the
    first tempering step, for every iteration budget. *)
Theorem euclid_get_LSM_embedding_raises
    (mu : vec) (sigma eps bookstein_dist : num) (key : Type)
    (split_at : key -> nat -> nat -> key)
    (random_normal : key -> list nat -> nat -> num)
    (smc_bookstein_position : list mat -> list mat)
    (get_bookstein_anchors : nat -> num -> mat)
    (add_bkst_to_smc_trace : TemperedSMCState -> num -> nat -> TemperedSMCState)
    (adaptive_tempered_smc :
       (pytree -> result num) -> (pytree -> result num) -> mat -> nat ->
       SamplingAlgorithm key)
    (fuel : nat) (k : key) (obs : mat) (N D : nat) (rmh_sigma : num)
    (n_mcmc_steps n_particles : nat) :
  Euclid.get_LSM_embedding mu sigma eps bookstein_dist split_at random_normal
    smc_bookstein_position get_bookstein_anchors add_bkst_to_smc_trace
    adaptive_tempered_smc fuel k obs N D rmh_sigma n_mcmc_steps n_particles
  = Some (Raise ValueError).
Proof.
  unfold Euclid.get_LSM_embedding.
  destruct (Euclid.initialize_bkst_particles _ _ _ _ _ _ _ _)
    as [[k1 init_position] | e] eqn:E.
  - now rewrite euclid_loop_raises.
  - apply euclid_initialize_raise in E. now subst.
Qed.

(** C7 (code bug).  Started in a state with [lambda = 0], the loop's
    condition asks for another step ([lambda < 1]), the step raises
    [ValueError], and so does the loop, for every iteration budget: the run
    stops at [lambda = 0], not when [lambda] reaches 1. *)
Theorem tempering_loop_stops_at_lambda_zero
    (key : Type) (split_at : key -> nat -> nat -> key) (fuel : nat) (k : key)
    (smc_kernel : key -> TemperedSMCState -> TemperedSMCState * SMCInfo)
    (ps : pytree) (ws : vec) :
  let initial_state := mkState ps ws zero in
  let carry := [VInt 0; VFloat zero; VState initial_state; VKey k] in
  Euclid.cond carry = Ok true /\
  Euclid.step split_at smc_kernel carry = Raise ValueError /\
  Euclid.smc_bkst_inference_loop split_at fuel k smc_kernel initial_state
  = Some (Raise ValueError).
Proof.
  intros initial_state carry. split; [|split; reflexivity].
  unfold carry, Euclid.cond, tuple_get.
  cbn [nth_error bind lmbda initial_state].
  unfold ltb, zero, one. destruct (Rlt_dec 0 1); [reflexivity | lra].
Qed.

(** ** Particle shapes and the proposal covariance *)

Lemma normal3_shape (key : Type) (rn : key -> list nat -> nat -> num)
    (k : key) (P n D : nat) :
  length (Jax.normal3 rn k P n D) = P /\
  Forall (shape2 n D) (Jax.normal3 rn k P n D).
Proof.
  unfold Jax.normal3. split; [now rewrite length_map, length_seq|].
  apply Forall_forall. intros m Hm. apply in_map_iff in Hm.
  destruct Hm as [p [<- _]]. split; [now rewrite length_map, length_seq|].
  apply Forall_forall. intros row Hrow. apply in_map_iff in Hrow.
  destruct Hrow as [i [<- _]]. now rewrite length_map, length_seq.
Qed.

Lemma zip_with_length (A B C : Type) (f : A -> B -> C) (a : list A)
    (b : list B) :
  length a = length b -> length (zip_with f a b) = length a.
Proof.
  revert b. induction a as [|x a IH]; intros [|y b] H; simpl in *;
    try discriminate; auto.
Qed.

Lemma mapM_rows_shape (g : vec -> result vec) (n d : nat) (m : mat) :
  (forall row, length row = d -> exists row', g row = Ok row' /\ length row' = d) ->
  shape2 n d m -> exists m', mapM g m = Ok m' /\ shape2 n d m'.
Proof.
  intros Hg [Hn Hrows]. subst n.
  induction Hrows as [|row m Hrow _ [m' [E [Hl Hr]]]].
  - exists []. repeat split; constructor.
  - destruct (Hg row Hrow) as [row' [Er Hlr]].
    exists (row' :: m'). cbn [mapM]. rewrite Er, bind_Ok, E, bind_Ok.
    repeat split; simpl; auto.
Qed.

Lemma mapM_particles_shape (g : mat -> result mat) (n d : nat) (t : list mat) :
  (forall m, shape2 n d m -> exists m', g m = Ok m' /\ shape2 n d m') ->
  Forall (shape2 n d) t ->
  exists t', mapM g t = Ok t' /\ length t' = length t /\
             Forall (shape2 n d) t'.
Proof.
  intros Hg Ht. induction Ht as [|m t Hm _ [t' [E [Hl Hs]]]].
  - exists []. repeat split; constructor.
  - destruct (Hg m Hm) as [m' [Em Hm']].
    exists (m' :: t'). cbn [mapM]. rewrite Em, bind_Ok, E, bind_Ok.
    repeat split; simpl; auto.
Qed.

Lemma mat_map_shape (f : num -> num) (n d : nat) (m : mat) :
  shape2 n d m -> shape2 n d (mat_map f m).
Proof.
  intros [Hn Hrows]. unfold mat_map. split; [now rewrite length_map|].
  apply Forall_forall. intros row Hrow. apply in_map_iff in Hrow.
  destruct Hrow as [r [<- Hr]]. rewrite length_map.
  rewrite Forall_forall in Hrows. now apply Hrows.
Qed.

Lemma concat_shape_length (n d : nat) (m : mat) :
  shape2 n d m -> length (concat m) = (n * d)%nat.
Proof.
  intros [Hn Hrows]. subst n. induction Hrows as [|row m Hrow _ IH];
    [reflexivity|].
  simpl. rewrite length_app, IH, Hrow. reflexivity.
Qed.

Lemma eye_length (n : nat) : length (eye n) = n.
Proof. unfold eye. now rewrite length_map, length_seq. Qed.

Lemma scale_length (c : num) (m : mat) : length (scale c m) = length m.
Proof. unfold scale, mat_map. apply length_map. Qed.

(** C8 (amended).  When [smc_bookstein_position] keeps the shape of its
    argument, [mu] has [D] entries and [D <= N]: the Euclidean particles are
    the dictionary [{'z'}] and the hyperbolic ones [{'_z', '_zb_x'}], with
    one free-coordinate block of shape (N-D, D) per particle and, in the
    hyperbolic model only, one scalar [_zb_x] per particle; the proposal
    covariance is [rmh_sigma] times an identity matrix in both models, and
    in the hyperbolic model its dimension (N-D)*D + 1 is the number of
    scalars of a particle. *)
Theorem particle_shapes_and_proposal_covariance
    (key : Type) (split_at : key -> nat -> nat -> key)
    (random_normal : key -> list nat -> nat -> num)
    (random_truncated_normal : key -> num -> num -> nat -> num)
    (smc_bookstein_position : list mat -> list mat)
    (mu : vec) (sigma bookstein_dist rmh_sigma : num)
    (k : key) (P N D : nat) :
  (forall t n d, Forall (shape2 n d) t ->
                 length (smc_bookstein_position t) = length t /\
                 Forall (shape2 n d) (smc_bookstein_position t)) ->
  length mu = D -> (D <= N)%nat ->
  (exists k' z,
      Euclid.initialize_bkst_particles mu sigma split_at random_normal
        smc_bookstein_position k P (N, D)
      = Ok (k', [("z"%string, A3 z)]) /\
      length z = P /\ Forall (shape2 (N - D) D) z) /\
  (exists k' _z _zb_x,
      Hyp.initialize_bkst_particles sigma bookstein_dist split_at
        random_normal random_truncated_normal smc_bookstein_position
        k P (N, D)
      = Ok (k', [("_z"%string, A3 _z); ("_zb_x"%string, A2 _zb_x)]) /\
      length _z = P /\ Forall (shape2 (N - D) D) _z /\ shape2 P 1 _zb_x /\
      forall i, (i < P)%nat ->
        length (ravel_particle
                  [("_z"%string, A3 _z); ("_zb_x"%string, A2 _zb_x)] i)
        = length (Hyp.rmh_parameters N D rmh_sigma)) /\
  Hyp.rmh_parameters N D rmh_sigma
  = scale rmh_sigma (eye ((N - D) * D + 1)) /\
  exists n, Euclid.rmh_parameters N D rmh_sigma = scale rmh_sigma (eye n).
Proof.
  intros Hbk Hmu HDN. split; [|split; [|split]].
  - unfold Euclid.initialize_bkst_particles. cbn [Jax.split map seq].
    destruct (normal3_shape random_normal (split_at k 2%nat 0%nat) P (N - D) D)
      as [Hlen Hshape].
    assert (Hg : forall m, shape2 (N - D) D m ->
              exists m',
                mapM (fun row =>
                        broadcast2 add (map (fun x => (sigma * x)%num) row) mu) m
                = Ok m' /\ shape2 (N - D) D m').
    { intros m Hm. apply mapM_rows_shape; [|exact Hm].
      intros row Hrow. eexists. split.
      - apply broadcast2_same_length. rewrite length_map. congruence.
      - rewrite zip_with_length; rewrite length_map; congruence. }
    destruct (@mapM_particles_shape
                (mapM (fun row =>
                         broadcast2 add (map (fun x => (sigma * x)%num) row) mu))
                _ _ _ Hg Hshape) as [t' [E [Hl Hs]]].
    destruct (Hbk t' _ _ Hs) as [Hl' Hs'].
    exists (split_at k 2%nat 1%nat), (smc_bookstein_position t').
    rewrite E, bind_Ok.
    split; [reflexivity|]. split; [congruence | exact Hs'].
  - unfold Hyp.initialize_bkst_particles. cbn [Jax.split map seq].
    destruct (normal3_shape random_normal (split_at k 3%nat 1%nat) P (N - D) D)
      as [Hlen Hshape].
    set (t := map (mat_map (fun x => (sigma * x)%num)) _).
    assert (Ht : length t = P /\ Forall (shape2 (N - D) D) t).
    { unfold t. split; [now rewrite length_map|].
      apply Forall_forall. intros m Hm. apply in_map_iff in Hm.
      destruct Hm as [m0 [<- Hm0]]. apply mat_map_shape.
      rewrite Forall_forall in Hshape. now apply Hshape. }
    destruct Ht as [Htl Hts]. destruct (Hbk t _ _ Hts) as [Hl' Hs'].
    set (zb := mat_map _ _).
    assert (Hzb : shape2 P 1 zb).
    { unfold zb. apply mat_map_shape. unfold Jax.truncated_normal2.
      split; [now rewrite length_map, length_seq|].
      apply Forall_forall. intros row Hrow. apply in_map_iff in Hrow.
      now destruct Hrow as [p [<- _]]. }
    eexists _, _, _. split; [reflexivity|].
    split; [congruence | split; [exact Hs' | split; [exact Hzb|]]].
    intros i Hi. unfold ravel_particle. cbn [map snd concat ravel_leaf].
    rewrite app_nil_r, length_app.
    unfold Hyp.rmh_parameters, Hyp.n_vars. rewrite scale_length, eye_length.
    assert (Hi' : (i < length (smc_bookstein_position t))%nat) by congruence.
    rewrite (@concat_shape_length (N - D) D).
    + destruct Hzb as [Hzl Hzr]. rewrite Forall_forall in Hzr.
      rewrite (Hzr (nth i zb [])) by (apply nth_In; congruence). reflexivity.
    + rewrite Forall_forall in Hs'. apply Hs'. now apply nth_In.
  - reflexivity.
  - eexists. reflexivity.
Qed.

Lemma particle_shapes_and_proposal_covariance_witness :
  let split_at := fun k n i : nat => (k * n + i)%nat in
  let random_normal := fun (_ : nat) (_ : list nat) (_ : nat) => Fin 0 in
  let random_truncated_normal :=
    fun (_ : nat) (_ _ : num) (_ : nat) => Fin 0 in
  let smc_bookstein_position := fun t : list mat => t in
  let mu := [Fin 0; Fin 0] in
  (forall t n d, Forall (shape2 n d) t ->
                 length (smc_bookstein_position t) = length t /\
                 Forall (shape2 n d) (smc_bookstein_position t)) /\
  length mu = 2%nat /\ (2 <= 3)%nat /\
  (exists k' z,
      Euclid.initialize_bkst_particles mu (Fin 1) split_at random_normal
        smc_bookstein_position 0%nat 2 (3%nat, 2%nat)
      = Ok (k', [("z"%string, A3 z)]) /\
      length z = 2%nat /\ Forall (shape2 (3 - 2) 2) z) /\
  (exists k' _z _zb_x,
      Hyp.initialize_bkst_particles (Fin 1) (Fin (3 / 10)) split_at
        random_normal random_truncated_normal smc_bookstein_position
        0%nat 2 (3%nat, 2%nat)
      = Ok (k', [("_z"%string, A3 _z); ("_zb_x"%string, A2 _zb_x)]) /\
      length _z = 2%nat /\ Forall (shape2 (3 - 2) 2) _z /\
      shape2 2 1 _zb_x /\
      forall i, (i < 2)%nat ->
        length (ravel_particle
                  [("_z"%string, A3 _z); ("_zb_x"%string, A2 _zb_x)] i)
        = length (Hyp.rmh_parameters 3 2 (Fin (1 / 100)))) /\
  Hyp.rmh_parameters 3 2 (Fin (1 / 100))
  = scale (Fin (1 / 100)) (eye ((3 - 2) * 2 + 1)) /\
  exists n, Euclid.rmh_parameters 3 2 (Fin (1 / 100))
            = scale (Fin (1 / 100)) (eye n).
Proof.
  intros split_at random_normal random_truncated_normal
    smc_bookstein_position mu.
  assert (Hbk : forall t n d, Forall (shape2 n d) t ->
                  length (smc_bookstein_position t) = length t /\
                  Forall (shape2 n d) (smc_bookstein_position t)).
  { intros t n d Ht. split; [reflexivity | exact Ht]. }
  assert (Hmu : length mu = 2%nat) by reflexivity.
  assert (HDN : (2 <= 3)%nat) by lia.
  split; [exact Hbk | split; [exact Hmu | split; [exact HDN |]]].
  exact (@particle_shapes_and_proposal_covariance nat split_at random_normal
           random_truncated_normal smc_bookstein_position mu (Fin 1)
           (Fin (3 / 10)) (Fin (1 / 100)) 0%nat 2%nat 3%nat 2%nat
           Hbk Hmu HDN).
Defined.

(** C8 as stated fails: with [rmh_sigma = 0.01] the covariance of the
    hyperbolic model is not an identity matrix (its first entry is 0.01),
    and the covariance of the Euclidean model has (N-D)*D + 1 rows, one more
    than the (N-D)*D scalars of a Euclidean particle. *)
Lemma proposal_covariance_not_identity :
  Hyp.rmh_parameters 3 2 (Fin (1 / 100)) <> eye (Hyp.n_vars 3 2) /\
  exists k' particles,
    Euclid.initialize_bkst_particles [Fin 0; Fin 0] (Fin 1)
      (fun k n i : nat => (k * n + i)%nat)
      (fun (_ : nat) (_ : list nat) (_ : nat) => Fin 0)
      (fun t : list mat => t) 0%nat 1 (3%nat, 2%nat)
    = Ok (k', particles) /\
    length (ravel_particle particles 0) = ((3 - 2) * 2)%nat /\
    length (Euclid.rmh_parameters 3 2 (Fin (1 / 100)))
    <> length (ravel_particle particles 0).
Proof.
  split.
  - intros H. apply (f_equal (fun m => entry m 0 0)) in H.
    unfold entry in H. cbn in H. injection H as H. lra.
  - unfold Euclid.initialize_bkst_particles.
    cbn [Jax.split Jax.normal3 map seq Nat.sub mapM].
    rewrite !broadcast2_same_length by reflexivity.
    cbn [bind]. eexists _, _. split; [reflexivity|].
    split; [reflexivity|]. 
    unfold Euclid.rmh_parameters. rewrite scale_length, eye_length.
    cbn. lia.
Qed.

(* ================================================================== *)
(** * Further properties of the geometric layer *)

(** ** Rows of finite numbers as lists of reals *)

Lemma map_Fin_op (f : num -> num) (g : R -> R) (x : list R) :
  (forall a, f (Fin a) = Fin (g a)) ->
  map f (map Fin x) = map Fin (map g x).
Proof.
  intros H. induction x as [|a x IH]; [reflexivity|].
  cbn [map]. now rewrite H, IH.
Qed.

(** ** [hyp_pnt] *)

Lemma sum_squares_Fin (xs : list R) :
  sum (map (fun c => (c * c)%num) (map Fin xs)) = Fin (rdot xs xs).
Proof.
  unfold sum, rdot. induction xs as [|a xs IH]; [reflexivity|].
  cbn [map zip_with fold_right]. now rewrite IH.
Qed.

Lemma hyp_pnt_row (xs : list R) :
  Helper.hyp_pnt [map Fin xs]
  = [map Fin (R_sqrt.sqrt (rdot xs xs + 1) :: xs)].
Proof.
  unfold Helper.hyp_pnt. cbn [map]. rewrite sum_squares_Fin.
  pose proof (rdot_self_nonneg xs). cbn [add one sqrt].
  destruct (Rlt_dec (rdot xs xs + 1) 0); [lra | reflexivity].
Qed.

Lemma hyp_pnt_cons (x : vec) (X : mat) :
  Helper.hyp_pnt (x :: X) = Helper.hyp_pnt [x] ++ Helper.hyp_pnt X.
Proof. reflexivity. Qed.

(** [hyp_pnt] keeps the coordinates it is given and puts in front of
    them a finite first coordinate that is at least 1: every row it
    returns lies on the side of the upper sheet. *)
Theorem hyp_pnt_on_upper_sheet (X : mat) :
  finite_mat X ->
  map (@tl num) (Helper.hyp_pnt X) = X /\
  Forall (fun row => exists a, hd NaN row = Fin a /\ 1 <= a) (Helper.hyp_pnt X).
Proof.
  intros HX.
  induction HX as [|x X Hx _ [IH1 IH2]].
  - split; constructor.
  - destruct (finite_vec_map_Fin Hx) as [xs ->].
    rewrite hyp_pnt_cons, hyp_pnt_row. cbn [app map tl].
    pose proof (rdot_self_nonneg xs) as Hn.
    split; [now rewrite IH1 |].
    constructor; [|exact IH2].
    eexists; split; [reflexivity |].
    rewrite <- sqrt_1 at 1. apply sqrt_le_1_alt. lra.
Qed.

Lemma hyp_pnt_on_upper_sheet_witness :
  map (@tl num) (Helper.hyp_pnt [[Fin 2; Fin 2]; [Fin 0; Fin 0]])
  = [[Fin 2; Fin 2]; [Fin 0; Fin 0]] /\
  Forall (fun row => exists a, hd NaN row = Fin a /\ 1 <= a)
         (Helper.hyp_pnt [[Fin 2; Fin 2]; [Fin 0; Fin 0]]).
Proof.
  apply (@hyp_pnt_on_upper_sheet [[Fin 2; Fin 2]; [Fin 0; Fin 0]]).
  repeat constructor.
Defined.

(** ** The local [arccosh] of [lorentz_distance] *)

(** The clipping in the local [arccosh] keeps it away from NaN: for every
    argument that is not NaN the result is zero or positive (possibly
    [+inf]), and it is exactly zero for every argument up to 1. *)
Theorem arccosh_guarded (x : num) :
  x <> NaN ->
  num_le zero (Helper.arccosh x) /\
  (num_le x one -> Helper.arccosh x = zero).
Proof.
  intros Hx. destruct x as [c| | |]; [| | |congruence].
  - destruct (arccosh_nonneg c) as [r [E Hr]]. split.
    + rewrite E. exact Hr.
    + cbn [num_le one]. intros Hc. rewrite arccosh_Fin.
      rewrite Rmax_right by exact Hc.
      replace (1 * 1 + - (1)) with 0 by ring.
      rewrite sqrt_0. replace (1 + 0) with 1 by ring.
      now rewrite ln_1.
  - split; [|intros []]. unfold Helper.arccosh.
    cbn [maximum one mul sub opp add sqrt log num_le zero]. exact I.
  - assert (E : Helper.arccosh NInf = zero).
    { unfold Helper.arccosh. cbn [maximum one mul sub opp add].
      replace (1 * 1 + - (1)) with 0 by ring. cbn [sqrt].
      destruct (Rlt_dec 0 0) as [? | _]; [lra|].
      rewrite sqrt_0. cbn [add]. replace (1 + 0) with 1 by ring.
      cbn [log]. destruct (Rlt_dec 0 1) as [_ | ?]; [|lra].
      now rewrite ln_1. }
    rewrite E. split; [cbn; lra | reflexivity].
Qed.

Lemma arccosh_guarded_witness :
  num_le zero (Helper.arccosh (Fin (1 / 2))) /\
  (num_le (Fin (1 / 2)) one -> Helper.arccosh (Fin (1 / 2)) = zero).
Proof.
  apply (@arccosh_guarded (Fin (1 / 2))). discriminate.
Defined.

(* ================================================================== *)
(** * Coordinate change, logistic functions, validity and file names *)

(** ** [lorentz_to_poincare] *)

Lemma calc_z_P_row (a : R) (x : list R) :
  0 < a ->
  Helper2.calc_z_P [map Fin (a :: x)]
  = Ok [map Fin (map (fun c => c / (a + 1)) x)].
Proof.
  intros Ha. unfold Helper2.calc_z_P. cbn [mapM map bind add one].
  rewrite (@map_Fin_op (fun c => (c / Fin (a + 1))%num)
             (fun c => c / (a + 1))); [reflexivity|].
  intros c. cbn [div]. destruct (Req_dec_T (a + 1) 0); [lra | reflexivity].
Qed.

Lemma rdot_scaled (k : R) (x : list R) :
  rdot (map (fun c => c / k) x) (map (fun c => c / k) x)
  = rdot x x / k / k.
Proof.
  induction x as [|a x IH]; [unfold rdot; simpl; unfold Rdiv; ring|].
  cbn [map]. rewrite !rdot_cons, IH. unfold Rdiv. ring.
Qed.

Lemma poincare_norm (a : R) (x : list R) :
  0 < a -> a * a = 1 + rdot x x ->
  rdot (map (fun c => c / (a + 1)) x) (map (fun c => c / (a + 1)) x) < 1.
Proof.
  intros Ha E. rewrite rdot_scaled.
  replace (rdot x x) with ((a - 1) * (a + 1)) by nra.
  replace ((a - 1) * (a + 1) / (a + 1) / (a + 1)) with ((a - 1) / (a + 1))
    by (field; lra).
  apply Rmult_lt_reg_r with (a + 1); [lra|].
  unfold Rdiv. rewrite Rmult_assoc, Rinv_l by lra. lra.
Qed.

(** [lorentz_to_poincare] maps every point of the upper sheet of the
    hyperboloid strictly inside the unit ball, and returns as many points
    as it is given. *)
Theorem lorentz_to_poincare_in_unit_ball (nw : mat) :
  Forall on_hyperboloid nw ->
  exists P : list (list R),
    Helper2.lorentz_to_poincare (A2 nw) = Ok (A2 (map (map Fin) P)) /\
    length P = length nw /\
    Forall (fun p => rdot p p < 1) P.
Proof.
  intros H. unfold Helper2.lorentz_to_poincare.
  assert (HP : exists P : list (list R),
             Helper2.calc_z_P nw = Ok (map (map Fin) P) /\
             length P = length nw /\ Forall (fun p => rdot p p < 1) P).
  { induction H as [|u nw [a [x [-> [Ha E]]]] _ [P [EP [HL HP]]]].
    - exists []. repeat split; constructor.
    - exists (map (fun c => c / (a + 1)) x :: P).
      pose proof (calc_z_P_row x Ha) as Er.
      unfold Helper2.calc_z_P in *. cbn [mapM] in *.
      destruct (match map Fin (a :: x) with [] => _ | z0 :: rest => _ end)
        as [row | e] eqn:Erow; [|discriminate].
      cbn [bind] in Er. injection Er as Er. subst row.
      cbn [map]. cbn [map] in Erow. rewrite Erow. cbn [bind].
      rewrite EP. cbn [bind map].
      repeat split; simpl; auto. constructor; [|exact HP].
      now apply poincare_norm. }
  destruct HP as [P [EP [HL HP]]]. exists P. rewrite EP. now repeat split.
Qed.

Lemma lorentz_to_poincare_in_unit_ball_witness :
  Forall on_hyperboloid [[Fin 1; Fin 0; Fin 0]; [Fin 3; Fin 2; Fin 2]] /\
  exists P : list (list R),
    Helper2.lorentz_to_poincare
      (A2 [[Fin 1; Fin 0; Fin 0]; [Fin 3; Fin 2; Fin 2]])
    = Ok (A2 (map (map Fin) P)) /\
    length P = length [[Fin 1; Fin 0; Fin 0]; [Fin 3; Fin 2; Fin 2]] /\
    Forall (fun p => rdot p p < 1) P.
Proof.
  assert (H : Forall on_hyperboloid
                [[Fin 1; Fin 0; Fin 0]; [Fin 3; Fin 2; Fin 2]]).
  { destruct on_hyperboloid_examples as [H1 H2].
    constructor; [exact H1 | constructor; [exact H2 | constructor]]. }
  split; [exact H |].
  exact (@lorentz_to_poincare_in_unit_ball _ H).
Defined.

(** ** [logit] and [invlogit] *)

Lemma invlogit_Fin (x : R) :
  Helper2.invlogit (Fin x) = Fin (1 / (1 + Rtrigo_def.exp (- x))).
Proof.
  unfold Helper2.invlogit. cbn [opp exp add one div].
  pose proof (exp_pos (- x)).
  destruct (Req_dec_T (1 + Rtrigo_def.exp (- x)) 0); [lra | reflexivity].
Qed.

(** [invlogit] maps every finite number into [[0, 1]], preserves the
    order, and takes the values 0 and 1 at the infinities. *)
Theorem invlogit_range_monotone (x y : R) :
  within_closed 0 1 (Helper2.invlogit (Fin x)) /\
  (x <= y ->
   num_le (Helper2.invlogit (Fin x)) (Helper2.invlogit (Fin y))) /\
  Helper2.invlogit NInf = Fin 0 /\ Helper2.invlogit PInf = Fin 1.
Proof.
  assert (Hr : forall t, 0 < 1 / (1 + Rtrigo_def.exp (- t)) < 1).
  { intros t. pose proof (exp_pos (- t)) as Hp.
    assert (0 < / (1 + Rtrigo_def.exp (- t))) by (apply Rinv_0_lt_compat; lra).
    split; [lra|].
    apply Rmult_lt_reg_r with (1 + Rtrigo_def.exp (- t)); [lra|].
    unfold Rdiv. rewrite Rmult_assoc, Rinv_l by lra. lra. }
  split; [|split; [|split]].
  - rewrite invlogit_Fin. eexists; split; [reflexivity|].
    pose proof (Hr x). lra.
  - intros Hxy. rewrite !invlogit_Fin. cbn [num_le].
    destruct (Req_dec x y) as [-> | Hne]; [lra|].
    pose proof (exp_pos (- x)). pose proof (exp_pos (- y)).
    assert (Rtrigo_def.exp (- y) < Rtrigo_def.exp (- x))
      by (apply exp_increasing; lra).
    unfold Rdiv. rewrite !Rmult_1_l. left.
    apply Rinv_lt_contravar; [nra | lra].
  - unfold Helper2.invlogit. cbn [opp exp add one div]. reflexivity.
  - unfold Helper2.invlogit. cbn [opp exp add one div].
    destruct (Req_dec_T (1 + 0) 0); [lra|]. f_equal. field.
Qed.

Lemma logit_Fin (x : R) :
  x < 1 -> Helper2.logit (Fin x) = Fin (ln (1 / (1 + - x))).
Proof.
  intros Hx. unfold Helper2.logit. cbn [sub opp add one div].
  destruct (Req_dec_T (1 + - x) 0); [lra|]. cbn [log].
  assert (0 < 1 / (1 + - x)).
  { unfold Rdiv. rewrite Rmult_1_l. apply Rinv_0_lt_compat. lra. }
  destruct (Rlt_dec 0 (1 / (1 + - x))); [reflexivity | lra].
Qed.

(** [invlogit] does not undo [logit]: for [0 <= x < 1] the value
    [invlogit(logit(x))] lies in [[1/2, 1]], so it differs from [x]
    whenever [x < 1/2]; at [x = 1], [logit] is [+inf] and [invlogit]
    returns 1. *)
Theorem invlogit_logit (x : R) :
  0 <= x < 1 ->
  within_closed (1 / 2) 1 (Helper2.invlogit (Helper2.logit (Fin x))) /\
  (x < 1 / 2 -> Helper2.invlogit (Helper2.logit (Fin x)) <> Fin x) /\
  Helper2.logit (Fin 1) = PInf /\
  Helper2.invlogit (Helper2.logit (Fin 1)) = Fin 1.
Proof.
  intros Hx.
  assert (E : Helper2.invlogit (Helper2.logit (Fin x)) = Fin (1 / (2 - x))).
  { rewrite logit_Fin by lra. rewrite invlogit_Fin. f_equal.
    assert (Hp : 0 < 1 / (1 + - x)).
    { unfold Rdiv. rewrite Rmult_1_l. apply Rinv_0_lt_compat. lra. }
    rewrite exp_Ropp, exp_ln by exact Hp. field. split; lra. }
  assert (B : 1 / 2 <= 1 / (2 - x) <= 1).
  { assert (Hm : (1 / (2 - x)) * (2 - x) = 1) by (field; lra).
    assert (Hpos : 0 < 1 / (2 - x)).
    { unfold Rdiv. rewrite Rmult_1_l. apply Rinv_0_lt_compat. lra. }
    split; nra. }
  assert (L1 : Helper2.logit (Fin 1) = PInf).
  { unfold Helper2.logit. cbn [sub opp add one div].
    destruct (Req_dec_T (1 + - (1)) 0) as [_ | ?]; [|lra].
    unfold signed_inf. destruct (Rlt_dec 0 1); [reflexivity | lra]. }
  split; [|split; [|split; [exact L1|]]].
  - rewrite E. eexists; split; [reflexivity | exact B].
  - intros Hh. rewrite E. intros H. injection H as H. lra.
  - rewrite L1. unfold Helper2.invlogit. cbn [opp exp add one div].
    destruct (Req_dec_T (1 + 0) 0); [lra|]. f_equal. field.
Qed.

Lemma invlogit_logit_witness :
  within_closed (1 / 2) 1 (Helper2.invlogit (Helper2.logit (Fin 0))) /\
  (0 < 1 / 2 -> Helper2.invlogit (Helper2.logit (Fin 0)) <> Fin 0) /\
  Helper2.logit (Fin 1) = PInf /\
  Helper2.invlogit (Helper2.logit (Fin 1)) = Fin 1.
Proof.
  apply (@invlogit_logit 0). lra.
Defined.

(** ** [is_valid] *)

Lemma where_from_spec (f : num -> bool) (x : vec) (i k : nat) :
  In k (Helper2.where_from i f x)
  <-> (i <= k)%nat /\ exists a, nth_error x (k - i) = Some a /\ f a = true.
Proof.
  revert i. induction x as [|a x IH]; intros i; simpl.
  - split; [contradiction|]. intros [_ [b [H _]]].
    destruct (k - i)%nat; discriminate.
  - destruct (f a) eqn:Fa; simpl; rewrite IH; split.
    + intros [<- | [Hle [b [Hb Fb]]]].
      * split; [lia|]. exists a. now rewrite Nat.sub_diag.
      * split; [lia|]. exists b. split; [|exact Fb].
        replace (k - i)%nat with (S (k - S i)) by lia. exact Hb.
    + intros [Hle [b [Hb Fb]]].
      destruct (Nat.eq_dec i k) as [-> | Hne]; [now left | right].
      split; [lia|]. exists b. split; [|exact Fb].
      replace (k - i)%nat with (S (k - S i)) in Hb by lia. exact Hb.
    + intros [Hle [b [Hb Fb]]]. split; [lia|]. exists b. split; [|exact Fb].
      replace (k - i)%nat with (S (k - S i)) by lia. exact Hb.
    + intros [Hle [b [Hb Fb]]].
      destruct (Nat.eq_dec i k) as [-> | Hne].
      * rewrite Nat.sub_diag in Hb. injection Hb as ->. congruence.
      * split; [lia|]. exists b. split; [|exact Fb].
        replace (k - i)%nat with (S (k - S i)) in Hb by lia. exact Hb.
Qed.

(** [is_valid] reports an array as valid exactly when it lists no
    position, and the positions it lists are exactly those of the entries
    that are infinite or NaN. *)
Theorem is_valid_flag_and_positions (x : vec) :
  (fst (Helper2.is_valid x) = true <-> snd (Helper2.is_valid x) = []) /\
  (fst (Helper2.is_valid x) = true <-> finite_vec x) /\
  forall k, In k (snd (Helper2.is_valid x))
            <-> exists a, nth_error x k = Some a /\ ~ is_finite a.
Proof.
  change (fst (Helper2.is_valid x)) with (forallb Helper2.isfinite x).
  assert (Hfin : forallb Helper2.isfinite x = true <-> finite_vec x).
  { rewrite forallb_forall. unfold finite_vec. rewrite Forall_forall.
    split; intros H a Ha; specialize (H a Ha);
      destruct a; simpl in *; auto; discriminate. }
  assert (Hpos : forall k, In k (snd (Helper2.is_valid x))
                   <-> exists a, nth_error x k = Some a /\ ~ is_finite a).
  { intros k. unfold Helper2.is_valid. cbn [snd].
    rewrite where_from_spec, Nat.sub_0_r. split.
    - intros [_ [a [Ha Fa]]]. exists a. split; [exact Ha|].
      destruct a; simpl in *; auto; discriminate.
    - intros [a [Ha Fa]]. split; [lia|]. exists a. split; [exact Ha|].
      destruct a; simpl in *; auto; exfalso; now apply Fa. }
  split; [|split; [exact Hfin | exact Hpos]].
  change (fst (Helper2.is_valid x)) with (forallb Helper2.isfinite x).
  rewrite Hfin. split.
  - intros Hx. destruct (snd (Helper2.is_valid x)) as [|k l] eqn:E;
      [reflexivity|]. exfalso.
    destruct (proj1 (Hpos k)) as [a [Ha Fa]]; [try rewrite E; now left|].
    apply Fa. unfold finite_vec in Hx. rewrite Forall_forall in Hx.
    apply Hx. eapply nth_error_In. exact Ha.
  - intros E. unfold finite_vec. apply Forall_forall. intros a Ha.
    destruct (In_nth_error _ _ Ha) as [k Hk].
    destruct a; simpl; auto; exfalso;
      (assert (Hin : In k (snd (Helper2.is_valid x)))
         by (apply Hpos; eexists; split; [exact Hk | simpl; tauto]));
      try rewrite E in Hin; contradiction.
Qed.

(** ** [get_filename_with_ext] *)

Lemma string_append_inj_l (s a b : string) :
  String.append s a = String.append s b -> a = b.
Proof.
  induction s as [|c s IH]; simpl; intros H; [exact H|].
  injection H as H. now apply IH.
Qed.

(** For one base name, extension and folder, the four combinations of the
    flags [partial] and [bpf] give four different file names. *)
Theorem get_filename_with_ext_flags_injective
    (base ext folder : string) (p1 b1 p2 b2 : bool) :
  Helper2.get_filename_with_ext base p1 b1 ext folder
  = Helper2.get_filename_with_ext base p2 b2 ext folder ->
  p1 = p2 /\ b1 = b2.
Proof.
  unfold Helper2.get_filename_with_ext. intros H.
  apply string_append_inj_l in H. apply string_append_inj_l in H.
  apply string_append_inj_l in H.
  destruct p1, b1, p2, b2; simpl in H; try (split; reflexivity);
    discriminate H.
Qed.

Lemma get_filename_with_ext_flags_injective_witness :
  Helper2.get_filename_with_ext "data" true false "pkl" "Data"
  = Helper2.get_filename_with_ext "data" true false "pkl" "Data" /\
  true = true /\ false = false.
Proof.
  assert (H : Helper2.get_filename_with_ext "data" true false "pkl" "Data"
              = Helper2.get_filename_with_ext "data" true false "pkl" "Data")
    by reflexivity.
  split; [exact H |].
  exact (@get_filename_with_ext_flags_injective
           "data" "pkl" "Data" true false true false H).
Defined.

(* ================================================================== *)
(** * Likelihood, priors and particles: further properties *)

(** ** The Bernoulli log-likelihood *)

Lemma d_to_p_within_closed (e : R) (ds : list R) :
  0 < e <= 1 / 2 ->
  Forall (within_closed e (1 - e)) (Hyp.d_to_p (map Fin ds) (Fin e)).
Proof.
  intros He. induction ds as [|a ds IH]; [constructor|].
  cbn [map]. rewrite d_to_p_cons, d_to_p_Fin. constructor; [|exact IH].
  eexists; split; [reflexivity | now apply hyp_p_range].
Qed.

Lemma logpmf_binary_bounds (k : num) (q e : R) :
  binary k -> 0 < e -> e <= q <= 1 - e ->
  exists r, Bernoulli.logpmf k (Fin q) = Fin r /\ ln e <= r <= 0.
Proof.
  intros Hk He Hq.
  assert (Hln : forall t, e <= t <= 1 -> ln e <= ln t <= 0).
  { intros t [H1 H2]. split.
    - destruct (Req_dec e t) as [-> | ?]; [lra|]. left. apply ln_increasing; lra.
    - destruct (Req_dec t 1) as [-> | ?]; [rewrite ln_1; lra|].
      rewrite <- ln_1. left. apply ln_increasing; lra. }
  unfold Bernoulli.logpmf, Bernoulli.xlogy, Bernoulli.xlog1py, Bernoulli.is_zero.
  destruct Hk as [-> | ->]; cbn [sub opp add zero one ltb orb].
  - destruct (Req_dec_T (0 + - 0) 0) as [_ | ?]; [|lra].
    destruct (Req_dec_T (1 + - (0 + - 0)) 0) as [? | _]; [lra|].
    destruct (Rlt_dec (0 + - 0) 0) as [? | _]; [lra|].
    destruct (Rlt_dec 1 (0 + - 0)) as [? | _]; [lra|].
    cbn [log]. destruct (Rlt_dec 0 (1 + - q)) as [_ | ?]; [|lra].
    cbn [mul add orb]. eexists; split; [reflexivity|].
    pose proof (Hln (1 + - q) ltac:(lra)). lra.
  - destruct (Req_dec_T (1 + - 0) 0) as [? | _]; [lra|].
    destruct (Req_dec_T (1 + - (1 + - 0)) 0) as [_ | ?]; [|lra].
    destruct (Rlt_dec (1 + - 0) 0) as [? | _]; [lra|].
    destruct (Rlt_dec 1 (1 + - 0)) as [? | _]; [lra|].
    cbn [log]. destruct (Rlt_dec 0 q) as [_ | ?]; [|lra].
    cbn [mul add orb]. eexists; split; [reflexivity|].
    pose proof (Hln q ltac:(lra)). lra.
Qed.

Lemma sum_bounded (v : vec) (lo : R) :
  lo <= 0 ->
  Forall (fun x => exists r, x = Fin r /\ lo <= r <= 0) v ->
  exists r, sum v = Fin r /\ INR (length v) * lo <= r <= 0.
Proof.
  intros Hlo H. induction H as [|x v [a [-> Ha]] _ [r [E Hr]]].
  - exists 0. simpl. split; [reflexivity | lra].
  - exists (a + r). unfold sum in *. cbn [fold_right]. rewrite E.
    split; [reflexivity|].
    change (length (Fin a :: v)) with (S (length v)). rewrite S_INR. nra.
Qed.

Lemma zip_logpmf_bounds (o p : vec) (e : R) :
  0 < e -> Forall binary o -> Forall (within_closed e (1 - e)) p ->
  Forall (fun x => exists r, x = Fin r /\ ln e <= r <= 0)
         (zip_with Bernoulli.logpmf o p).
Proof.
  intros He Hb. revert p. induction Hb as [|k o Hk _ IH]; intros p Hp;
    [constructor|].
  destruct Hp as [|q p [qr [-> Hq]] Hp]; [constructor|].
  cbn [zip_with]. constructor; [|now apply IH].
  now apply logpmf_binary_bounds.
Qed.

(** For observations that are all 0 or 1, finite distances and an offset
    [1e-7 <= eps <= 1/2] (large enough for [1 - eps] to stay below 1 in
    single precision), [log_likelihood_from_dist] returns a finite value
    that is not positive: the clipping of the link probabilities keeps
    the log-likelihood away from minus infinity. *)
Theorem log_likelihood_from_dist_finite (ds : list R) (obs : mat) (e : R) :
  1 / 10000000 <= e <= 1 / 2 ->
  Forall (fun o => length o = length ds /\ Forall binary o) obs ->
  exists r,
    Hyp2.log_likelihood_from_dist (map Fin ds) obs (Fin e) = Ok (Fin r) /\
    r <= 0.
Proof.
  intros He0 Hobs.
  assert (He : 0 < e <= 1 / 2) by lra.
  assert (Hle : ln e <= 0).
  { rewrite <- ln_1. left. apply ln_increasing; lra. }
  pose proof (d_to_p_within_closed ds He) as Hp.
  unfold Hyp2.log_likelihood_from_dist, Bernoulli.logpmf_sum.
  set (p := Hyp.d_to_p (map Fin ds) (Fin e)) in *.
  assert (Hlp : length p = length ds).
  { unfold p, Hyp.d_to_p. now rewrite !length_map. }
  assert (Hrow : forall o, length o = length ds -> Forall binary o ->
            exists r, sum (zip_with Bernoulli.logpmf o p) = Fin r /\
                      INR (length ds) * ln e <= r <= 0).
  { intros o Hl Hb.
    assert (Hz : Forall (fun x => exists r, x = Fin r /\ ln e <= r <= 0)
                   (zip_with Bernoulli.logpmf o p)).
    { apply zip_logpmf_bounds; [lra | exact Hb | exact Hp]. }
    destruct (sum_bounded Hle Hz) as [r [E Hr]].
    exists r. split; [exact E|].
    rewrite zip_with_length in Hr by congruence. now rewrite Hl in Hr. }
  assert (Hall : exists rows,
            mapM (fun o => broadcast2 Bernoulli.logpmf o p) obs = Ok rows /\
            length rows = length obs /\
            Forall (fun row => exists r, sum row = Fin r /\
                                 INR (length ds) * ln e <= r <= 0) rows).
  { induction Hobs as [|o obs [Hl Hb] _ [rows [E [HL HR]]]].
    - exists []. repeat split; constructor.
    - exists (zip_with Bernoulli.logpmf o p :: rows). cbn [mapM].
      rewrite broadcast2_same_length by congruence.
      rewrite bind_Ok, E, bind_Ok. repeat split; simpl; auto. }
  destruct Hall as [rows [E [HL HR]]]. rewrite E, bind_Ok.
  assert (Hs : Forall (fun x => exists r, x = Fin r /\
                         INR (length ds) * ln e <= r <= 0) (map sum rows)).
  { clear -HR. induction HR; simpl; constructor; auto. }
  assert (Hlo : INR (length ds) * ln e <= 0).
  { pose proof (pos_INR (length ds)). nra. }
  destruct (sum_bounded Hlo Hs) as [r [Er Hr]].
  exists r. unfold sum2. rewrite Er. split; [reflexivity|lra].
Qed.

Lemma log_likelihood_from_dist_finite_witness :
  exists r,
    Hyp2.log_likelihood_from_dist (map Fin [0; 1])
      [[Fin 0; Fin 1]; [Fin 1; Fin 1]] (Fin (1 / 100000))
    = Ok (Fin r) /\
    r <= 0.
Proof.
  apply (@log_likelihood_from_dist_finite [0; 1]
           [[Fin 0; Fin 1]; [Fin 1; Fin 1]] (1 / 100000)).
  - lra.
  - unfold binary.
    repeat (apply Forall_cons || apply Forall_nil || split
            || reflexivity || (left; reflexivity) || (right; reflexivity)).
Defined.

(** ** The orientation constraint of the Bookstein priors *)

Lemma bookstein_log_prior_violated_witness :
  let z := [[Fin 0; Fin (-1)]; [Fin 2; Fin 3]] in
  let mu := [Fin 0; Fin 0] in
  -1 < 0 /\ 1 <> 0 /\ finite_mat z /\ finite_vec mu /\ finite_vec [Fin 0] /\
  Forall (fun row => length row = length mu) z /\
  Euclid.bookstein_log_prior z mu (Fin 1) = Ok NInf /\
  Hyp.bookstein_log_prior (Fin (3 / 10)) z [Fin 0] (Fin 1) = Ok NInf.
Proof.
  intros z mu.
  assert (H1 : -1 < 0) by lra.
  assert (H2 : 1 <> 0) by lra.
  assert (H3 : finite_mat z) by (repeat constructor).
  assert (H4 : finite_vec mu) by (repeat constructor).
  assert (H5 : finite_vec [Fin 0]) by (repeat constructor).
  assert (H6 : Forall (fun row : vec => length row = length mu) z)
    by (repeat constructor).
  split; [exact H1 | split; [exact H2 | split; [exact H3 | split; [exact H4 |
    split; [exact H5 | split; [exact H6 |]]]]]].
  exact (@bookstein_log_prior_violated (Fin 0) (-1) [] [[Fin 2; Fin 3]]
           mu [Fin 0] 1 (3 / 10) H1 H2 H3 H4 H5 H6).
Defined.

(** ** Edge cases of the deterministic parameters *)

(** With fewer than two points there is no distance to normalise: the
    Euclidean [get_det_params] raises [ValueError] (the maximum of an empty
    array). *)
Theorem euclid_get_det_params_needs_two_points (z : mat) (eps : num) :
  (length z <= 1)%nat -> Euclid.get_det_params z eps = Raise ValueError.
Proof.
  intros H. unfold Euclid.get_det_params. rewrite euclidean_distance_table.
  destruct z as [|x [|y z]]; [reflexivity | reflexivity | simpl in H; lia].
Qed.

Lemma euclid_get_det_params_needs_two_points_witness :
  (length [[Fin 1; Fin 2]] <= 1)%nat /\
  Euclid.get_det_params [[Fin 1; Fin 2]] (Fin (1 / 1000000)) = Raise ValueError.
Proof.
  assert (H : (length [[Fin 1; Fin 2]] <= 1)%nat) by (simpl; lia).
  split; [exact H |].
  exact (@euclid_get_det_params_needs_two_points [[Fin 1; Fin 2]]
           (Fin (1 / 1000000)) H).
Defined.

(** ** [initialize_particles] *)

(** [initialize_particles] draws positions of shape (N, D) for the module
    constants [N] and [D], whatever [shape] it is called with. *)
Theorem initialize_particles_ignores_shape
    (N D : nat) (mu : vec) (sigma : num) (key : Type)
    (split_at : key -> nat -> nat -> key)
    (random_normal : key -> list nat -> nat -> num)
    (k : key) (P : nat) (shape : nat * nat) :
  length mu = D ->
  exists k' z,
    Euclid2.initialize_particles N D mu sigma split_at random_normal k P shape
    = Ok (k', [("z"%string, A3 z)]) /\
    length z = P /\ Forall (shape2 N D) z.
Proof.
  intros Hmu. unfold Euclid2.initialize_particles. cbn [Jax.split map seq].
  destruct (normal3_shape random_normal (split_at k 2%nat 0%nat) P N D)
    as [Hlen Hshape].
  assert (Hg : forall m, shape2 N D m ->
            exists m',
              mapM (fun row =>
                      broadcast2 add (map (fun x => (sigma * x)%num) row) mu) m
              = Ok m' /\ shape2 N D m').
  { intros m Hm. apply mapM_rows_shape; [|exact Hm].
    intros row Hrow. eexists. split.
    - apply broadcast2_same_length. rewrite length_map. congruence.
    - rewrite zip_with_length; rewrite length_map; congruence. }
  destruct (@mapM_particles_shape
              (mapM (fun row =>
                       broadcast2 add (map (fun x => (sigma * x)%num) row) mu))
              _ _ _ Hg Hshape) as [t' [E [Hl Hs]]].
  exists (split_at k 2%nat 1%nat), t'. rewrite E, bind_Ok.
  split; [reflexivity | split; [congruence | exact Hs]].
Qed.

Lemma initialize_particles_ignores_shape_witness :
  let mu := [Fin 0; Fin 0] in
  length mu = 2%nat /\
  exists k' z,
    Euclid2.initialize_particles 164 2 mu (Fin 1)
      (fun k n i : nat => (k * n + i)%nat)
      (fun (_ : nat) (_ : list nat) (_ : nat) => Fin 0)
      0%nat 3 (10%nat, 5%nat)
    = Ok (k', [("z"%string, A3 z)]) /\
    length z = 3%nat /\ Forall (shape2 164 2) z.
Proof.
  intros mu.
  assert (H : length mu = 2%nat) by reflexivity.
  split; [exact H |].
  exact (@initialize_particles_ignores_shape 164 2 mu (Fin 1) nat
           (fun k n i : nat => (k * n + i)%nat)
           (fun (_ : nat) (_ : list nat) (_ : nat) => Fin 0)
           0%nat 3%nat (10%nat, 5%nat) H).
Defined.

(* ================================================================== *)
(** * The arrays returned by the hyperbolic [get_det_params] *)

Lemma set_nth_length (i : nat) (v : num) (row : vec) :
  length (set_nth i v row) = length row.
Proof.
  revert i. induction row as [|x row IH]; intros [|i]; simpl; auto.
Qed.

Lemma set_diag_from_Forall (P : vec -> Prop) (Q : num -> Prop) (i : nat)
    (v : num) (m : mat) :
  (forall k row, P row -> P (set_nth k v row)) ->
  Forall P m -> Forall P (set_diag_from i v m).
Proof.
  intros HP H. revert i. induction H as [|row m Hr _ IH]; intros i; simpl;
    constructor; auto.
Qed.

Lemma lorentz_distance_square (z : mat) :
  length (Helper.lorentz_distance z) = length z /\
  Forall (fun row => length row = length z) (Helper.lorentz_distance z).
Proof.
  rewrite lorentz_distance_table. unfold set_diag. split.
  - generalize 0%nat. unfold table.
    generalize (fun x : vec => map (lorentz_entry x) z).
    intros f. induction z as [|x z' IH]; intros i; simpl; auto.
  - apply (@set_diag_from_Forall (fun row => length row = length z)
             (fun _ => True)).
    + intros k row Hrow. now rewrite set_nth_length.
    + unfold table. apply Forall_forall. intros row Hrow.
      apply in_map_iff in Hrow. destruct Hrow as [x [<- _]].
      apply length_map.
Qed.

Lemma triangular_step (l : nat) :
  (l + l * (l - 1) / 2 = S l * (S l - 1) / 2)%nat.
Proof.
  replace (S l * (S l - 1))%nat with (l * (l - 1) + l * 2)%nat.
  - rewrite Nat.div_add by lia. lia.
  - destruct l; simpl; lia.
Qed.

Lemma triu_from_length (n i : nat) (m : mat) :
  Forall (fun row => length row = n) m -> (i + length m = n)%nat ->
  length (triu_from i m) = (length m * (length m - 1) / 2)%nat.
Proof.
  intros H. revert i. induction H as [|row m Hrow _ IH]; intros i Hi;
    [reflexivity|].
  cbn [triu_from]. rewrite length_app, length_skipn, Hrow.
  rewrite (IH (S i)) by (simpl in Hi; lia).
  simpl length in *. rewrite <- triangular_step. lia.
Qed.

Lemma zip_with_length_min (A B C : Type) (f : A -> B -> C) (a : list A)
    (b : list B) :
  length (zip_with f a b) = Nat.min (length a) (length b).
Proof.
  revert b. induction a as [|x a IH]; intros [|y b]; simpl; auto.
Qed.

Lemma hyp_positions_length (_z : mat) (mu : vec) :
  let mu_0 := map (fun row => one :: map (fun _ => zero) row) _z in
  let mu_h := Helper.hyp_pnt (map (fun _ => mu) _z) in
  let v := map (fun row => zero :: row) _z in
  length (Helper.exponential_map mu_h
            (Helper.parallel_transport v mu_0 mu_h)
            Helper.exponential_map_eps)
  = length _z.
Proof.
  cbv zeta.
  unfold Helper.exponential_map, Helper.parallel_transport, Helper.u_norm,
    Helper.lorentzian, Helper.row_scale, Helper.hyp_pnt, mat_zip.
  repeat rewrite ?zip_with_length_min, ?length_map.
  lia.
Qed.

(** The hyperbolic [get_det_params] checks the width of [mu] and returns
    arrays of matching sizes: for [N >= 1] positions of [D] coordinates,
    a [mu] of another length than [D] raises [AssertionError]; a [mu] of
    length [D] gives a dictionary that holds the positions it was given,
    one point of [z] per position, and one distance in [d] and one
    probability in [p] for each of the [N (N - 1) / 2] pairs of
    positions. *)
Theorem hyp_get_det_params_shapes
    (_z : mat) (mu : vec) (eps : num) (N D : nat) :
  (1 <= N)%nat -> shape2 N D _z ->
  (length mu <> D ->
   Hyp.get_det_params _z mu eps = Raise AssertionError) /\
  (length mu = D ->
   exists prm,
     Hyp.get_det_params _z mu eps = Ok prm /\
     p_z prm = _z /\
     length (p_zh prm) = N /\
     length (p_d prm) = (N * (N - 1) / 2)%nat /\
     length (p_p prm) = (N * (N - 1) / 2)%nat).
Proof.
  intros HN [HL Hrows].
  assert (Hc : ncols _z = D).
  { destruct _z as [|x _z']; [simpl in HL; lia|].
    simpl. now inversion Hrows. }
  unfold Hyp.get_det_params. rewrite Hc. split; intros Hmu.
  - apply Nat.eqb_neq in Hmu. now rewrite Hmu.
  - rewrite Hmu, Nat.eqb_refl. cbn [negb].
    eexists; split; [reflexivity|]. cbn [p_z p_zh p_d p_p].
    pose proof (hyp_positions_length _z mu) as Hz. cbv zeta in Hz.
    set (z := Helper.exponential_map _ _ _) in *.
    destruct (lorentz_distance_square z) as [Hl Hsq].
    assert (Hd : length (triu (Helper.lorentz_distance z))
                 = (N * (N - 1) / 2)%nat).
    { unfold triu.
      rewrite (@triu_from_length (length z) 0) by (exact Hsq || lia).
      now rewrite Hl, Hz, HL. }
    repeat split; [congruence | exact Hd |].
    unfold Hyp.d_to_p. now rewrite length_map.
Qed.

Lemma hyp_get_det_params_shapes_witness :
  let _z := [[Fin 1; Fin 0]; [Fin 0; Fin 1]; [Fin 1; Fin 1]] in
  let mu := [Fin 0; Fin 0] in
  (length mu <> 2%nat ->
   Hyp.get_det_params _z mu (Fin (1 / 100000)) = Raise AssertionError) /\
  (length mu = 2%nat ->
   exists prm,
     Hyp.get_det_params _z mu (Fin (1 / 100000)) = Ok prm /\
     p_z prm = _z /\
     length (p_zh prm) = 3%nat /\
     length (p_d prm) = (3 * (3 - 1) / 2)%nat /\
     length (p_p prm) = (3 * (3 - 1) / 2)%nat).
Proof.
  intros _z mu.
  apply (@hyp_get_det_params_shapes _z mu (Fin (1 / 100000)) 3 2).
  - lia.
  - split; [reflexivity | repeat constructor].
Defined.

(* ================================================================== *)
(** * Data manipulation *)

(** ** [triu2mat] *)

Lemma even_consecutive (n : nat) : (2 * (n * (n - 1) / 2) = n * (n - 1))%nat.
Proof.
  induction n as [|n IH]; [reflexivity|].
  replace (S n * (S n - 1))%nat with (n * (n - 1) + n * 2)%nat
    by (destruct n; simpl; lia).
  rewrite Nat.div_add by lia. lia.
Qed.

Lemma triu_size_triangular (n : nat) :
  (1 <= n)%nat -> DataManip.triu_size (n * (n - 1) / 2) = n.
Proof.
  intros Hn. unfold DataManip.triu_size.
  replace (1 + 8 * (n * (n - 1) / 2))%nat with ((2 * n - 1) * (2 * n - 1))%nat.
  - rewrite Nat.sqrt_square.
    replace (1 + (2 * n - 1))%nat with (n * 2)%nat by lia.
    now rewrite Nat.div_mul by lia.
  - pose proof (even_consecutive n) as E.
    replace (8 * (n * (n - 1) / 2))%nat with (4 * (n * (n - 1)))%nat by lia.
    destruct n as [|k]; [lia|]. simpl. nia.
Qed.

Lemma add_zero_r (x : num) : (x + zero)%num = x.
Proof. destruct x; simpl; try reflexivity. f_equal. ring. Qed.

Lemma zip_add_zeros (c : vec) (m : nat) :
  (length c <= m)%nat -> zip_with add c (repeat zero m) = c.
Proof.
  revert m. induction c as [|x c IH]; intros [|m] H; simpl in *;
    try reflexivity; try lia.
  rewrite add_zero_r, IH by lia. reflexivity.
Qed.

Lemma map_const_repeat (A B : Type) (f : A -> B) (z : B) (l : list A) :
  Forall (fun x => f x = z) l -> map f l = repeat z (length l).
Proof. induction 1; simpl; congruence. Qed.

Lemma zip_with_nil_r (A B C : Type) (f : A -> B -> C) (a : list A) :
  zip_with f a (@nil B) = [].
Proof. now destruct a. Qed.

Lemma skipn_zip_with (A B C : Type) (f : A -> B -> C) (k : nat)
    (a : list A) (b : list B) :
  skipn k (zip_with f a b) = zip_with f (skipn k a) (skipn k b).
Proof.
  revert a b. induction k as [|k IH]; intros a b; [reflexivity|].
  destruct a as [|x a]; [reflexivity|].
  destruct b as [|y b]; simpl.
  - now rewrite zip_with_nil_r.
  - apply IH.
Qed.

Lemma fill_triu_length (n i r : nat) (v : vec) :
  length (DataManip.fill_triu n i r v) = r.
Proof.
  revert i v. induction r as [|r IH]; intros i v; simpl; auto.
Qed.

Lemma fill_triu_lower_zero (n i r : nat) (v : vec) (k j : nat) :
  (j <= i + k)%nat ->
  nth j (nth k (DataManip.fill_triu n i r v) []) zero = zero.
Proof.
  revert i v k. induction r as [|r IH]; intros i v k Hj.
  - destruct k, j; reflexivity.
  - destruct k as [|k]; cbn [DataManip.fill_triu nth].
    + rewrite app_nth1 by (rewrite repeat_length; lia).
      apply nth_repeat.
    + apply IH. lia.
Qed.

Lemma fill_triu_skipn (n : nat) (k i r : nat) (v : vec) :
  exists v', skipn k (DataManip.fill_triu n i r v)
             = DataManip.fill_triu n (i + k) (r - k) v'.
Proof.
  revert i r v. induction k as [|k IH]; intros i r v.
  - exists v. now rewrite Nat.add_0_r, Nat.sub_0_r.
  - destruct r as [|r]; [now exists v|].
    cbn [DataManip.fill_triu skipn].
    destruct (IH (S i) r (skipn (n - S i) v)) as [v' E].
    exists v'. rewrite E. f_equal; lia.
Qed.

Lemma fill_triu_column_zero (n i r : nat) (v : vec) (j : nat) :
  (j <= i)%nat ->
  Forall (fun row => nth j row zero = zero) (DataManip.fill_triu n i r v).
Proof.
  revert i v. induction r as [|r IH]; intros i v Hj; [constructor|].
  cbn [DataManip.fill_triu]. constructor.
  - rewrite app_nth1 by (rewrite repeat_length; lia). apply nth_repeat.
  - apply IH. lia.
Qed.

Lemma transpose_zero_past_diagonal (n : nat) (v : vec) (i r : nat) :
  zero_past_diagonal n i
    (map (fun j => map (fun row => nth j row zero) (DataManip.fill_triu n 0 n v))
         (seq i r)).
Proof.
  revert i. induction r as [|r IH]; intros i; [exact I|].
  cbn [seq map zero_past_diagonal]. split; [|apply IH].
  rewrite skipn_map.
  destruct (fill_triu_skipn n (S i) 0 n v) as [v' E]. rewrite E.
  rewrite map_const_repeat with (z := zero)
    by (apply fill_triu_column_zero; lia).
  now rewrite fill_triu_length.
Qed.

Lemma triu_from_fill (n : nat) (r i : nat) (v : vec) (T : mat) :
  (i + r = n)%nat -> (2 * length v = r * (r - 1))%nat ->
  length T = r -> zero_past_diagonal n i T ->
  triu_from i (mat_zip add (DataManip.fill_triu n i r v) T) = v.
Proof.
  unfold mat_zip. revert i v T.
  induction r as [|r IH]; intros i v T Hn Hv HT HZ.
  - destruct v; [reflexivity|simpl in Hv; lia].
  - destruct T as [|c T]; [discriminate|]. destruct HZ as [Hc HZ].
    cbn [DataManip.fill_triu zip_with triu_from].
    rewrite skipn_zip_with, Hc.
    rewrite skipn_app, repeat_length.
    rewrite skipn_all2 by (rewrite repeat_length; lia).
    replace (S i - S i)%nat with 0%nat by lia.
    cbn [skipn app].
    rewrite zip_add_zeros by (rewrite length_firstn; lia).
    rewrite IH.
    + apply firstn_skipn.
    + lia.
    + rewrite length_skipn. replace (n - S i)%nat with r by lia.
      simpl in Hv. nia.
    + now injection HT.
    + exact HZ.
Qed.

Lemma fill_triu_rows (n : nat) (r i : nat) (v : vec) :
  (i + r = n)%nat -> (2 * length v = r * (r - 1))%nat ->
  Forall (fun row => length row = n) (DataManip.fill_triu n i r v).
Proof.
  revert i v. induction r as [|r IH]; intros i v Hn Hv; [constructor|].
  cbn [DataManip.fill_triu]. constructor.
  - rewrite length_app, repeat_length, length_firstn.
    replace (n - S i)%nat with r in * by lia. simpl in Hv. nia.
  - apply IH; [lia|]. rewrite length_skipn.
    replace (n - S i)%nat with r by lia. simpl in Hv. nia.
Qed.

Lemma nth_zip_with (A B C : Type) (f : A -> B -> C) (a : list A) (b : list B)
    (j : nat) (da : A) (db : B) (dc : C) :
  (j < length a)%nat -> (j < length b)%nat ->
  nth j (zip_with f a b) dc = f (nth j a da) (nth j b db).
Proof.
  revert a b. induction j as [|j IH]; intros [|x a] [|y b] Ha Hb;
    simpl in *; try lia; [reflexivity|].
  apply IH; lia.
Qed.

Lemma triu2mat_entry (n : nat) (v : vec) (i j : nat) :
  let U := DataManip.fill_triu n 0 n v in
  (2 * length v = n * (n - 1))%nat -> (1 <= n)%nat ->
  (i < n)%nat -> (j < n)%nat ->
  entry (mat_zip add U (DataManip.transpose U)) i j
  = (nth j (nth i U []) zero + nth i (nth j U []) zero)%num.
Proof.
  intros U Hv Hn Hi Hj.
  assert (HR : Forall (fun row => length row = n) U)
    by (apply fill_triu_rows; [lia|exact Hv]).
  assert (HL : length U = n) by apply fill_triu_length.
  assert (Hc : ncols U = n).
  { destruct U as [|r0 U']; [simpl in HL; lia|]. simpl.
    now inversion HR. }
  assert (Hrow : forall k, (k < n)%nat -> length (nth k U []) = n).
  { intros k Hk. rewrite Forall_forall in HR. apply HR, nth_In. lia. }
  unfold entry, mat_zip, DataManip.transpose. rewrite Hc.
  rewrite (@nth_zip_with _ _ _ (zip_with add) U _ i [] [] [])
    by (rewrite ?length_map, ?length_seq; lia).
  rewrite (@nth_zip_with _ _ _ add _ _ j zero zero NaN).
  - f_equal.
    rewrite (nth_indep _ [] (map (fun row => nth 0 row zero) U))
      by (rewrite length_map, length_seq; lia).
    rewrite (map_nth (fun j0 => map (fun row => nth j0 row zero) U) (seq 0 n) 0%nat i).
    rewrite seq_nth by lia. cbn [Nat.add].
    rewrite (nth_indep _ zero (nth i [] zero))
      by (rewrite length_map; lia).
    now rewrite (map_nth (fun row => nth i row zero) U [] j).
  - rewrite Hrow; lia.
  - rewrite (nth_indep _ [] (map (fun row => nth 0 row zero) U))
      by (rewrite length_map, length_seq; lia).
    rewrite (map_nth (fun j0 => map (fun row => nth j0 row zero) U) (seq 0 n) 0%nat i).
    rewrite length_map. lia.
Qed.

(** [triu2mat] undoes the reading of the upper triangle: a vector of
    [n (n - 1) / 2] numbers becomes an [n] by [n] symmetric matrix with a
    zero diagonal whose entries above the diagonal, row by row, are the
    vector again. *)
Theorem triu2mat_round_trip (n : nat) (v : vec) :
  (1 <= n)%nat -> length v = (n * (n - 1) / 2)%nat ->
  exists M, DataManip.triu2mat v = Ok M /\ shape2 n n M /\ triu M = v /\
    (forall i j, (i < n)%nat -> (j < n)%nat -> entry M i j = entry M j i) /\
    (forall i, (i < n)%nat -> entry M i i = zero).
Proof.
  intros Hn Hv.
  assert (Hv2 : (2 * length v = n * (n - 1))%nat)
    by (rewrite Hv; apply even_consecutive).
  unfold DataManip.triu2mat. cbv zeta. rewrite Hv.
  rewrite triu_size_triangular by exact Hn.
  rewrite Nat.eqb_refl. cbn [negb].
  eexists. split; [reflexivity|].
  set (U := DataManip.fill_triu n 0 n v).
  assert (HR : Forall (fun row => length row = n) U)
    by (apply fill_triu_rows; [lia|exact Hv2]).
  assert (HL : length U = n) by apply fill_triu_length.
  assert (Hc : ncols U = n).
  { destruct U as [|r0 U']; [simpl in HL; lia|]. simpl. now inversion HR. }
  assert (HT : DataManip.transpose U
               = map (fun j => map (fun row => nth j row zero) U) (seq 0 n))
    by (unfold DataManip.transpose; now rewrite Hc).
  repeat split.
  - unfold mat_zip. rewrite zip_with_length; [exact HL|].
    rewrite HT, length_map, length_seq. exact HL.
  - unfold mat_zip. rewrite HT. clear Hc HT.
    assert (G : forall (a b : mat),
               Forall (fun row => length row = n) a ->
               Forall (fun row => length row = n) b ->
               Forall (fun row => length row = n) (zip_with (zip_with add) a b)).
    { intros a b Ha. revert b. induction Ha as [|x a Hx _ IH];
        intros b Hb; [constructor|].
      destruct Hb as [|y b Hy Hb]; [constructor|]. cbn [zip_with].
      constructor; [|now apply IH].
      rewrite zip_with_length; congruence. }
    apply G; [exact HR|]. apply Forall_forall. intros c Hc.
    apply in_map_iff in Hc. destruct Hc as [j [<- _]].
    now rewrite length_map.
  - unfold triu. rewrite HT. apply triu_from_fill; try lia.
    + now rewrite length_map, length_seq.
    + apply transpose_zero_past_diagonal.
  - intros i j Hi Hj. subst U.
    rewrite !triu2mat_entry by assumption. apply add_comm.
  - intros i Hi. subst U. rewrite triu2mat_entry by assumption.
    rewrite fill_triu_lower_zero by lia. apply add_zero_r.
Qed.

Lemma triu2mat_round_trip_witness :
  exists M, DataManip.triu2mat [Fin 1; Fin 2; Fin 3] = Ok M /\
    shape2 3 3 M /\ triu M = [Fin 1; Fin 2; Fin 3] /\
    (forall i j, (i < 3)%nat -> (j < 3)%nat -> entry M i j = entry M j i) /\
    (forall i, (i < 3)%nat -> entry M i i = zero).
Proof.
  apply (@triu2mat_round_trip 3 [Fin 1; Fin 2; Fin 3]); [lia|reflexivity].
Defined.

(* ================================================================== *)
(** ** [get_attribute_from_trace] *)

Lemma get_lt (A : Type) (l : list A) (n : nat) (d : A) :
  (n < length l)%nat -> get l n = Ok (nth n l d).
Proof.
  intros H. destruct l as [|x l]; [simpl in H; lia|].
  unfold get. rewrite Nat.min_l by lia. f_equal. apply nth_indep. exact H.
Qed.

Lemma upd_map_seq (A : Type) (f : A -> A) (h : nat -> A) (n a len : nat) :
  Trace.upd n f (map h (seq a len))
  = map (fun j => if Nat.eqb j (a + n) then f (h j) else h j) (seq a len).
Proof.
  revert n a. induction len as [|len IH]; intros n a; [now destruct n|].
  destruct n as [|n]; cbn [seq map Trace.upd].
  - rewrite Nat.add_0_r, Nat.eqb_refl. f_equal.
    apply map_ext_in. intros j Hj. apply in_seq in Hj.
    destruct (Nat.eqb_spec j a); [lia|reflexivity].
  - destruct (Nat.eqb_spec a (a + S n)); [lia|]. f_equal.
    rewrite IH. apply map_ext. intros j.
    now replace (S a + n)%nat with (a + S n)%nat by lia.
Qed.

Lemma filled_step (g : mat -> vec) (e : list (list mat)) (P M k i : nat) :
  (i < P)%nat ->
  Trace.upd k (Trace.upd i (fun _ => g (nth i (nth k e []) [])))
    (filled g e P M (k * P + i))
  = filled g e P M (k * P + i + 1).
Proof.
  intros Hi. unfold filled. rewrite upd_map_seq.
  apply map_ext_in. intros k' Hk'. cbn [Nat.add].
  destruct (Nat.eqb_spec k' k) as [->|Hk].
  - rewrite upd_map_seq. apply map_ext_in. intros i' Hi'.
    apply in_seq in Hi'. cbn [Nat.add].
    destruct (Nat.eqb_spec i' i) as [->|Hne].
    + destruct (Nat.ltb_spec (k * P + i) (k * P + i + 1)); [reflexivity|lia].
    + destruct (Nat.ltb_spec (k * P + i') (k * P + i));
        destruct (Nat.ltb_spec (k * P + i') (k * P + i + 1));
        try reflexivity; lia.
  - apply map_ext_in. intros i' Hi'. apply in_seq in Hi'.
    destruct (Nat.ltb_spec (k' * P + i') (k * P + i));
      destruct (Nat.ltb_spec (k' * P + i') (k * P + i + 1));
      try reflexivity; nia.
Qed.

Lemma filled_zero (g : mat -> vec) (e : list (list mat)) (P M : nat) :
  filled g e P M 0 = repeat (repeat (repeat zero M) P) (length e).
Proof.
  unfold filled.
  assert (R : forall (A : Type) (x : A) (n a : nat),
             map (fun _ => x) (seq a n) = repeat x n).
  { intros A x n. induction n as [|n IH]; intros a; simpl; [reflexivity|].
    now rewrite IH. }
  rewrite <- (R _ (repeat (repeat zero M) P) (length e) 0%nat).
  apply map_ext. intros k.
  rewrite <- (R _ (repeat zero M) P 0%nat).
  apply map_ext. intros i. reflexivity.
Qed.

Lemma map_nth_seq (A B : Type) (h : A -> B) (l : list A) (d : A) :
  map (fun i => h (nth i l d)) (seq 0 (length l)) = map h l.
Proof.
  induction l as [|x l IH]; [reflexivity|].
  cbn [length seq map nth]. f_equal.
  rewrite <- seq_shift, map_map. exact IH.
Qed.

Lemma filled_all (g : mat -> vec) (e : list (list mat)) (P M : nat) :
  Forall (fun row => length row = P) e ->
  filled g e P M (length e * P) = map (map g) e.
Proof.
  intros He. unfold filled.
  rewrite <- (map_nth_seq (map g) e []).
  apply map_ext_in. intros k Hk. apply in_seq in Hk.
  assert (HP : length (nth k e []) = P).
  { rewrite Forall_forall in He. apply He, nth_In. lia. }
  rewrite <- (map_nth_seq g (nth k e []) []), HP.
  apply map_ext_in. intros i Hi. apply in_seq in Hi.
  destruct (Nat.ltb_spec (k * P + i) (length e * P)); [reflexivity|nia].
Qed.

Section TraceLoop.

Variable det_attr : mat -> result vec.
Variable g : mat -> vec.
Variable e : list (list mat).
Variables P N : nat.

Hypothesis HP : (1 <= P)%nat.
Hypothesis Hrows :
  Forall (fun row =>
            length row = P /\
            Forall (fun z => length z = N /\ det_attr z = Ok (g z) /\
                             length (g z) = (N * (N - 1) / 2)%nat) row) e.

Lemma trace_particle (k i : nat) :
  (k < length e)%nat -> (i < P)%nat ->
  length (nth k e []) = P /\
  length (nth i (nth k e []) []) = N /\
  det_attr (nth i (nth k e []) []) = Ok (g (nth i (nth k e []) [])) /\
  length (g (nth i (nth k e []) [])) = (N * (N - 1) / 2)%nat.
Proof.
  intros Hk Hi. rewrite Forall_forall in Hrows.
  destruct (Hrows (nth k e [])) as [HL HF]; [apply nth_In; lia|].
  split; [exact HL|]. rewrite Forall_forall in HF.
  apply HF, nth_In. lia.
Qed.

Lemma step_filled (k i : nat) :
  (k < length e)%nat -> (i < P)%nat ->
  exists k' i',
    Trace.step det_attr e P (N * (N - 1) / 2) 
      (k, i, filled g e P (N * (N - 1) / 2) (k * P + i))
    = Ok (k', i', filled g e P (N * (N - 1) / 2) (k' * P + i')) /\
    (k' * P + i' = k * P + i + 1)%nat /\ (k' <= length e)%nat /\
    ((k' < length e)%nat /\ (i' < P)%nat \/ k' = length e /\ i' = 0%nat).
Proof.
  intros Hk Hi. destruct (trace_particle Hk Hi) as [HL [_ [Hd Hg]]].
  unfold Trace.step.
  rewrite (get_lt e [] Hk). cbn [bind].
  rewrite (@get_lt _ (nth k e []) i []) by lia. cbn [bind].
  rewrite Hd. cbn [bind]. unfold Trace.fit. rewrite Hg, Nat.eqb_refl.
  cbn [bind]. rewrite filled_step by exact Hi.
  destruct (Nat.eq_dec (i + 1) P) as [E|E].
  - rewrite E, Nat.Div0.mod_same. cbn [Nat.eqb].
    exists (k + 1)%nat, 0%nat. split; [|split; [nia|split; lia]].
    replace ((k + 1) * P + 0)%nat with (k * P + i + 1)%nat by nia.
    reflexivity.
  - rewrite Nat.mod_small by lia.
    replace (Nat.eqb (i + 1) 0) with false
      by (symmetry; apply Nat.eqb_neq; lia).
    exists (k + 0)%nat, (i + 1)%nat. split; [|split; [nia|split; lia]].
    replace ((k + 0) * P + (i + 1))%nat with (k * P + i + 1)%nat by nia.
    reflexivity.
Qed.

Lemma iterate_filled (n : nat) :
  forall fuel k i,
    (k * P + i + n = length e * P)%nat ->
    ((k < length e)%nat /\ (i < P)%nat \/ k = length e /\ i = 0%nat) ->
    (n < fuel)%nat ->
    Trace.iterate (length e) (Trace.step det_attr e P (N * (N - 1) / 2)) fuel
      (k, i, filled g e P (N * (N - 1) / 2) (k * P + i))
    = Some (Ok (length e, 0%nat, map (map g) e)).
Proof.
  assert (HL : Forall (fun row => length row = P) e).
  { eapply Forall_impl; [|exact Hrows]. now intros row [H _]. }
  induction n as [|n IH]; intros fuel k i Hs Hki Hf;
    (destruct fuel as [|fuel]; [lia|]); cbn [Trace.iterate Trace.cond].
  - assert (k = length e /\ i = 0%nat) as [-> ->] by (destruct Hki; nia).
    rewrite Nat.ltb_irrefl, Nat.add_0_r. now rewrite filled_all.
  - assert (Hk : (k < length e)%nat /\ (i < P)%nat) by (destruct Hki; nia).
    destruct Hk as [Hk Hi].
    destruct (Nat.ltb_spec k (length e)); [|lia].
    destruct (step_filled Hk Hi) as [k' [i' [E [Hs' [_ Hki']]]]].
    rewrite E. apply IH; [lia|exact Hki'|lia].
Qed.

Lemma run_filled (fuel : nat) :
  e <> [] -> (length e * P < fuel)%nat ->
  Trace.run det_attr fuel e
  = Some (Ok (if Nat.eqb (length e) 1 then Trace.First (map g (hd [] e))
              else Trace.Full (map (map g) e))).
Proof.
  intros Hne Hf.
  assert (HT : (0 < length e)%nat) by (destruct e; [congruence|simpl; lia]).
  destruct (@trace_particle 0 0 HT HP) as [HL [HN _]].
  unfold Trace.run, Trace.while_loop.
  replace (hd [] e) with (nth 0 e []) by now destruct e.
  replace (hd [] (nth 0 e [])) with (nth 0 (nth 0 e []) [])
    by now destruct (nth 0 e []).
  rewrite HL, HN, <- filled_zero with (g := g).
  change 0%nat with (0 * P + 0)%nat at 2 4.
  destruct (step_filled HT HP) as [k' [i' [E _]]].
  cbn [Nat.mul Nat.add] in *. rewrite E.
  change (filled g e P (N * (N - 1) / 2) 0)
    with (filled g e P (N * (N - 1) / 2) (0 * P + 0)).
  rewrite (@iterate_filled (length e * P)) by (simpl; lia || (left; lia)).
  destruct (Nat.eqb (length e) 1) eqn:E1; [|reflexivity].
  apply Nat.eqb_eq in E1. destruct e as [|r [|r' e']]; try discriminate.
  reflexivity.
Qed.

End TraceLoop.

(** The loop of [get_attribute_from_trace] visits every particle of
    every sample once and stops: with at least one sample and one
    particle per sample, and a one-dimensional attribute of [N (N - 1) / 2]
    entries computed without error, the result holds the attribute of
    the particle at [(k, i)] in slot [(k, i)].  A trace of a single sample
    comes back without its leading axis, whether it was passed with
    rank four or rank three. *)
Theorem get_attribute_from_trace_maps
    (det_attr : mat -> result vec) (g : mat -> vec) (e : list (list mat))
    (P N fuel : nat) :
  e <> [] -> (1 <= P)%nat ->
  Forall (fun row =>
            length row = P /\
            Forall (fun z => length z = N /\ det_attr z = Ok (g z) /\
                             length (g z) = (N * (N - 1) / 2)%nat) row) e ->
  (length e * P < fuel)%nat ->
  Trace.get_attribute_from_trace det_attr fuel (Trace.Rank4 e)
  = Some (Ok (if Nat.eqb (length e) 1 then Trace.First (map g (hd [] e))
              else Trace.Full (map (map g) e))) /\
  Trace.get_attribute_from_trace det_attr fuel (Trace.Rank3 (hd [] e))
  = Some (Ok (Trace.First (map g (hd [] e)))).
Proof.
  intros Hne HP Hrows Hf. split.
  - apply run_filled with (P := P) (N := N); assumption.
  - destruct e as [|row e']; [congruence|]. cbn [hd].
    change (Trace.get_attribute_from_trace det_attr fuel (Trace.Rank3 row))
      with (Trace.run det_attr fuel [row]).
    change (Trace.First (map g row))
      with (if Nat.eqb (length [row]) 1 then Trace.First (map g (hd [] [row]))
            else Trace.Full (map (map g) [row])).
    apply run_filled with (P := P) (N := N).
    + exact HP.
    + constructor; [|constructor]. now inversion Hrows.
    + discriminate.
    + simpl in *. lia.
Qed.

Lemma get_attribute_from_trace_maps_witness :
  let det_attr := fun z : mat => Ok [entry z 0 0] in
  let g := fun z : mat => [entry z 0 0] in
  let e := [[[[Fin 1]; [Fin 2]]]; [[[Fin 3]; [Fin 4]]]] in
  Trace.get_attribute_from_trace det_attr 3 (Trace.Rank4 e)
  = Some (Ok (Trace.Full [[[Fin 1]]; [[Fin 3]]])) /\
  Trace.get_attribute_from_trace det_attr 3 (Trace.Rank3 (hd [] e))
  = Some (Ok (Trace.First [[Fin 1]])).
Proof.
  intros det_attr g e.
  apply (@get_attribute_from_trace_maps det_attr g e 1 2 3).
  - discriminate.
  - lia.
  - repeat constructor.
  - simpl. lia.
Defined.

(* ================================================================== *)
(** ** Task files *)

Lemma free_app (c0 : ascii) (a b : string) :
  free c0 a -> free c0 b -> free c0 (a ++ b)%string.
Proof. induction a as [|c a IH]; simpl; tauto. Qed.

Lemma free_concat (c0 : ascii) (sep : string) (l : list string) :
  free c0 sep -> Forall (free c0) l -> free c0 (String.concat sep l).
Proof.
  intros Hs Hl. induction Hl as [|x l Hx Hl IH]; [exact I|].
  destruct l as [|y l]; [exact Hx|].
  cbn [String.concat]. auto using free_app.
Qed.

Lemma free_uint (c0 : ascii) (d : Decimal.uint) :
  (nat_of_ascii c0 < 48)%nat -> free c0 (NilEmpty.string_of_uint d).
Proof.
  intros Hc.
  assert (D : forall c, (48 <= nat_of_ascii c)%nat -> Ascii.eqb c c0 = false).
  { intros c H. destruct (Ascii.eqb_spec c c0); [subst; lia|reflexivity]. }
  induction d; cbn [NilEmpty.string_of_uint free];
    (split; [apply D; vm_compute; lia|assumption]) || exact I.
Qed.

Lemma free_names (c0 : ascii) (prefix : string) (n : nat) :
  (nat_of_ascii c0 < 48)%nat -> free c0 prefix ->
  Forall (free c0)
    (map (fun i => (prefix ++ TaskFile.str i)%string) (seq 0 n)).
Proof.
  intros Hc Hp. apply Forall_forall. intros s Hs.
  apply in_map_iff in Hs. destruct Hs as [i [<- _]].
  apply free_app; [exact Hp|]. now apply free_uint.
Qed.

Lemma split_free (c0 : ascii) (s : string) :
  free c0 s -> TaskFile.split c0 s = [s].
Proof.
  induction s as [|c s IH]; [reflexivity|]. intros [Hc Hs].
  cbn [TaskFile.split]. now rewrite Hc, IH.
Qed.

Lemma split_app (c0 : ascii) (a b : string) :
  free c0 a ->
  TaskFile.split c0 (a ++ String c0 b)%string = a :: TaskFile.split c0 b.
Proof.
  induction a as [|c a IH].
  - intros _. cbn [append TaskFile.split]. now rewrite Ascii.eqb_refl.
  - intros [Hc Ha]. cbn [append TaskFile.split]. now rewrite Hc, IH.
Qed.

Lemma split_concat (c0 : ascii) (l : list string) :
  Forall (free c0) l -> l <> [] ->
  TaskFile.split c0 (String.concat (String c0 EmptyString) l) = l.
Proof.
  intros Hl. induction Hl as [|x l Hx Hl IH]; [congruence|]. intros _.
  destruct l as [|y l]; [now apply split_free|].
  cbn [String.concat append]. rewrite split_app by exact Hx.
  f_equal. apply IH. discriminate.
Qed.

Lemma rstrip_free (c0 : ascii) (s : string) :
  free c0 s -> TaskFile.rstrip c0 s = s.
Proof.
  induction s as [|c s IH]; [reflexivity|]. intros [Hc Hs].
  cbn [TaskFile.rstrip]. rewrite IH by exact Hs.
  destruct s; [now rewrite Hc|reflexivity].
Qed.

Lemma rstrip_line (c0 : ascii) (s : string) :
  free c0 s -> TaskFile.rstrip c0 (s ++ String c0 EmptyString)%string = s.
Proof.
  induction s as [|c s IH].
  - intros _. simpl. now rewrite Ascii.eqb_refl.
  - intros [Hc Hs]. cbn [append TaskFile.rstrip]. rewrite IH by exact Hs.
    destruct s; [now rewrite Hc|reflexivity].
Qed.

Lemma readline_line (a b : string) :
  free TaskFile.LF a ->
  TaskFile.readline ((a ++ String TaskFile.LF EmptyString) ++ b)%string
  = ((a ++ String TaskFile.LF EmptyString)%string, b).
Proof.
  induction a as [|c a IH].
  - intros _. reflexivity.
  - intros [Hc Ha]. cbn [append TaskFile.readline].
    now rewrite Hc, IH.
Qed.

Lemma readline_last (a : string) :
  free TaskFile.LF a -> TaskFile.readline a = (a, EmptyString).
Proof.
  induction a as [|c a IH]; [reflexivity|]. intros [Hc Ha].
  cbn [TaskFile.readline]. now rewrite Hc, IH.
Qed.

Lemma universal_newlines_free (s : string) :
  free TaskFile.CR s -> TaskFile.universal_newlines false s = s.
Proof.
  induction s as [|c s IH]; [reflexivity|]. intros [Hc Hs].
  cbn [TaskFile.universal_newlines].
  now rewrite Hc, andb_false_r, IH.
Qed.

Lemma split_names (prefix : string) (n : nat) :
  free ","%char prefix ->
  TaskFile.split ","%char
    (String.concat "," (map (fun i => (prefix ++ TaskFile.str i)%string) (seq 0 n)))
  = if Nat.eqb n 0 then [EmptyString]
    else map (fun i => (prefix ++ TaskFile.str i)%string) (seq 0 n).
Proof.
  intros Hp. destruct n as [|n]; [reflexivity|].
  apply split_concat.
  - apply free_names; [vm_compute; lia|exact Hp].
  - discriminate.
Qed.

(** Reading back a task file written with the default delimiter returns
    the names [T0, T1, ...] and [obs0, obs1, ...] that were written; a
    file written for no task (or no observation) comes back with one
    task (or observation) whose name is empty. *)
Theorem open_created_task_file
    (fs : TaskFile.files) (filename : string) (n_tasks n_observations : nat) :
  TaskFile.open_taskfile
    (TaskFile.create_task_file fs filename n_tasks n_observations ",")
    filename
  = Some
      (if Nat.eqb n_tasks 0 then [EmptyString]
       else map (fun i => ("T" ++ TaskFile.str i)%string) (seq 0 n_tasks),
       if Nat.eqb n_observations 0 then [EmptyString]
       else map (fun i => ("obs" ++ TaskFile.str i)%string)
                (seq 0 n_observations)).
Proof.
  unfold TaskFile.open_taskfile, TaskFile.create_task_file,
    TaskFile.write_file.
  rewrite String.eqb_refl.
  set (task_str := String.concat "," (map _ (seq 0 n_tasks))).
  set (obs_str := String.concat "," (map _ (seq 0 n_observations))).
  assert (F : forall c0, (nat_of_ascii c0 < 44)%nat ->
                         free c0 task_str /\ free c0 obs_str).
  { intros c0 Hc.
    assert (Hsep : free c0 ",").
    { split; [|exact I]. destruct (Ascii.eqb_spec ","%char c0);
        [subst; vm_compute in Hc; lia|reflexivity]. }
    assert (HT : free c0 "T").
    { split; [|exact I]. destruct (Ascii.eqb_spec "T"%char c0);
        [subst; vm_compute in Hc; lia|reflexivity]. }
    assert (HO : free c0 "obs").
    { repeat split;
        match goal with
        | |- Ascii.eqb ?c c0 = false =>
            destruct (Ascii.eqb_spec c c0); [subst; vm_compute in Hc; lia|reflexivity]
        end. }
    split; apply free_concat; try exact Hsep;
      apply free_names; try assumption; lia. }
  destruct (F TaskFile.LF) as [TL OL]; [vm_compute; lia|].
  destruct (F TaskFile.CR) as [TC OC]; [vm_compute; lia|].
  rewrite universal_newlines_free.
  2:{ apply free_app; [apply free_app; [exact TC|]|exact OC].
      split; [reflexivity|exact I]. }
  rewrite readline_line by exact TL.
  rewrite rstrip_line by exact TL.
  rewrite readline_last by exact OL.
  rewrite rstrip_free by exact OL.
  subst task_str obs_str.
  rewrite !split_names by (simpl; auto).
  reflexivity.
Qed.
